(** * Verification of the scene-synchronisation core of deco-sites/kv

    Shallow embedding of [src/collab.ts] (class [ExcalidrawCollab]) and of
    [src/util.ts] ([throttle], [interleave]).

    Conventions of the embedding:
    - a JSON document is [json]; a plain JS object is an association list of
      its own properties in insertion order ([obj]);
    - JS numbers that occur here (timestamps, versions) are integers and are
      modelled as [Z];
    - a JS exception leaves every mutation made before it in place: an
      operation returns an [outcome] that carries the state in both cases. *)

From Stdlib Require Import String List ZArith Bool Lia.
Import ListNotations.
Open Scope string_scope.
Open Scope Z_scope.
Open Scope list_scope.
Set Warnings "-register-all".

(** ** JSON values and plain objects *)

Inductive json : Type :=
| JNull
| JBool (b : bool)
| JNum (n : Z)
| JStr (s : string)
| JArr (l : list json)
| JObj (o : list (string * json)).

Definition obj := list (string * json).

(** Own-property read. *)
Fixpoint own {A : Type} (k : string) (o : list (string * A)) : option A :=
  match o with
  | [] => None
  | (k', v) :: o' => if String.eqb k k' then Some v else own k o'
  end.

(** [o[k] = v]: an existing own property keeps its place, a new one is
    appended. *)
Fixpoint obj_set {A : Type} (k : string) (v : A) (o : list (string * A))
  : list (string * A) :=
  match o with
  | [] => [(k, v)]
  | (k', v') :: o' =>
      if String.eqb k k' then (k', v) :: o' else (k', v') :: obj_set k v o'
  end.

(** [delete o[k]]. *)
Definition obj_del {A : Type} (k : string) (o : list (string * A))
  : list (string * A) :=
  filter (fun p => negb (String.eqb (fst p) k)) o.

(** Names of the members every plain object inherits from
    [Object.prototype]. *)
Definition proto_names : list string :=
  ["constructor"; "__proto__"; "hasOwnProperty"; "isPrototypeOf";
   "propertyIsEnumerable"; "toLocaleString"; "toString"; "valueOf";
   "__defineGetter__"; "__defineSetter__"; "__lookupGetter__";
   "__lookupSetter__"].

Definition is_proto_name (k : string) : bool :=
  existsb (String.eqb k) proto_names.

(** Result of a property read [o[k]]: a JSON value, [undefined], or an
    inherited member of [Object.prototype] (a function, or the prototype
    object itself for [__proto__]). *)
Inductive jsval : Type :=
| Undef
| Inherited
| Val (v : json).

Definition get (o : obj) (k : string) : jsval :=
  match own k o with
  | Some v => Val v
  | None => if is_proto_name k then Inherited else Undef
  end.

(** [!x] is false exactly for the truthy values. *)
Definition truthy (x : jsval) : bool :=
  match x with
  | Undef => false
  | Inherited => true
  | Val JNull => false
  | Val (JBool b) => b
  | Val (JNum n) => negb (Z.eqb n 0)
  | Val (JStr s) => negb (String.eqb s "")
  | Val (JArr _) | Val (JObj _) => true
  end.

(** [x.updated] when it is a number; [None] stands for [undefined] (a
    missing property, or a read on an inherited member).  The declared type
    [ExcalidrawElement] gives [updated : number]. *)
Definition updated_of (x : jsval) : option Z :=
  match x with
  | Val (JObj o) =>
      match own "updated" o with Some (JNum n) => Some n | _ => None end
  | _ => None
  end.

(** [a > b] on the two [updated] reads: numeric, and false as soon as one
    side is [undefined] (it converts to NaN). *)
Definition gt_updated (a b : option Z) : bool :=
  match a, b with
  | Some x, Some y => Z.gtb x y
  | _, _ => false
  end.

(** ** Collaborators and events (the [CollabEvent] union) *)

Record collaborator : Type := mkCollaborator {
  c_id : option string;
  c_fields : obj  (** pointer, username, color, ...: opaque here *)
}.

Inductive event : Type :=
| CollaboratorUpdated (payload : collaborator)
| CollaboratorLeft (payload : string)
| SceneSynced (elements : jsval) (collaborators : list (string * collaborator))
    (version : Z)
| SceneElementsSynced (elements : jsval) (version : Z)
| SceneElementsDiff (diff : obj) (version : Z).

(** ** [throttle] (src/util.ts)

    The closure's two variables: [lastCall] and the pending [timeoutId],
    represented by the clock time at which the scheduled timer is due. *)

Record throttle_state : Type := mkThrottle {
  lastCall : Z;
  timeoutId : option Z
}.

Definition throttle_init : throttle_state := mkThrottle 0 None.

(** One call of the throttled function at [Date.now() = now]; the boolean
    tells whether [fn] runs in this call. *)
Definition throttle_call (delay now : Z) (t : throttle_state)
  : throttle_state * bool :=
  if Z.geb (now - lastCall t) delay then
    (* lastCall = now; clearTimeout(timeoutId); fn(...args) *)
    (mkThrottle now None, true)
  else
    match timeoutId t with
    | None =>
        (* setTimeout(..., delay - (now - lastCall)): due at lastCall + delay *)
        (mkThrottle (lastCall t) (Some (now + (delay - (now - lastCall t)))),
         false)
    | Some _ => (t, false)
    end.

(** The timer callback, run at [Date.now() = now]. *)
Definition throttle_fire (now : Z) (t : throttle_state)
  : throttle_state * bool :=
  match timeoutId t with
  | Some _ => (mkThrottle now None, true)
  | None => (t, false)
  end.

(** Runs of the throttled function against the event loop: a call at
    [Date.now() = now], or the pending timer firing at a clock time not
    before the time it was due.  The index lists the times at which [fn]
    ran. *)
Inductive throttle_exec (D : Z) : throttle_state -> list Z -> throttle_state -> Prop :=
| te_nil t : throttle_exec D t [] t
| te_call t now t' w ws tf :
    throttle_call D now t = (t', w) ->
    throttle_exec D t' ws tf ->
    throttle_exec D t ((if w then [now] else []) ++ ws) tf
| te_fire t now due t' ws tf :
    timeoutId t = Some due -> due <= now ->
    throttle_fire now t = (t', true) ->
    throttle_exec D t' ws tf ->
    throttle_exec D t (now :: ws) tf.

(** Consecutive runs of [fn] at least [D] apart, the first at least [D]
    after [last]. *)
Fixpoint spaced (D last : Z) (ws : list Z) : Prop :=
  match ws with
  | [] => True
  | w :: ws' => D <= w - last /\ spaced D w ws'
  end.

(** A call of the throttled function, or the run of its pending timer's
    callback, at the given clock time. *)
Inductive tevent : Type :=
| TCall (now : Z)
| TFire (now : Z).

(** A sequence of calls and timer callbacks in the order the event loop runs
    them, from state [t]; the second component lists the times at which
    [fn] ran. *)
Fixpoint throttle_run (D : Z) (t : throttle_state) (evs : list tevent)
  : throttle_state * list Z :=
  match evs with
  | [] => (t, [])
  | ev :: evs' =>
      let '(t1, w, now) :=
        match ev with
        | TCall now => let '(t1, w) := throttle_call D now t in (t1, w, now)
        | TFire now => let '(t1, w) := throttle_fire now t in (t1, w, now)
        end in
      let '(tf, ws) := throttle_run D t1 evs' in
      (tf, (if w then [now] else []) ++ ws)
  end.

(** ** The actor state of [ExcalidrawCollab]

    Besides the fields of the class, the record carries what the code
    observes of its environment: the [WatchTarget] subscribers with their
    buffered events, the clock read by [Date.now()], the behaviour of
    [state.storage.put], and what became of the detached save promises. *)

Record collab : Type := mkCollab {
  collaborators : list (string * collaborator);  (** [_collaborators] *)
  subs : list (nat * list event);   (** [collabEvents] subscribers *)
  next_sub : nat;
  notified : list event;            (** every [collabEvents.notify], in order *)
  sceneData : json;                 (** [{ elements }] *)
  sceneVersion : Z;
  saver : throttle_state;           (** state of [throttledSaveState] *)
  clock : Z;
  storage_fails : bool;             (** [storage.put] rejects *)
  stored : option (jsval * Z);      (** last value [put] under "state" *)
  rejections : list (jsval * Z)     (** save promises that rejected, unhandled *)
}.

Definition set_collaborators (r : list (string * collaborator)) (s : collab) :=
  mkCollab r (subs s) (next_sub s) (notified s) (sceneData s) (sceneVersion s)
    (saver s) (clock s) (storage_fails s) (stored s) (rejections s).
Definition set_subs (q : list (nat * list event)) (n : nat) (s : collab) :=
  mkCollab (collaborators s) q n (notified s) (sceneData s) (sceneVersion s)
    (saver s) (clock s) (storage_fails s) (stored s) (rejections s).
Definition set_sceneData (d : json) (s : collab) :=
  mkCollab (collaborators s) (subs s) (next_sub s) (notified s) d
    (sceneVersion s) (saver s) (clock s) (storage_fails s) (stored s)
    (rejections s).
Definition set_sceneVersion (v : Z) (s : collab) :=
  mkCollab (collaborators s) (subs s) (next_sub s) (notified s) (sceneData s) v
    (saver s) (clock s) (storage_fails s) (stored s) (rejections s).
Definition set_saver (t : throttle_state) (s : collab) :=
  mkCollab (collaborators s) (subs s) (next_sub s) (notified s) (sceneData s)
    (sceneVersion s) t (clock s) (storage_fails s) (stored s) (rejections s).
Definition set_storage_fails (b : bool) (s : collab) :=
  mkCollab (collaborators s) (subs s) (next_sub s) (notified s) (sceneData s)
    (sceneVersion s) (saver s) (clock s) b (stored s) (rejections s).
Definition set_saved (st : option (jsval * Z)) (rj : list (jsval * Z))
    (s : collab) :=
  mkCollab (collaborators s) (subs s) (next_sub s) (notified s) (sceneData s)
    (sceneVersion s) (saver s) (clock s) (storage_fails s) st rj.

(** [new ExcalidrawCollab(state)] with nothing stored yet. *)
Definition collab_init (now : Z) (fails : bool) : collab :=
  mkCollab [] [] 0 [] (JObj [("elements", JObj [])]) 0 throttle_init now fails
    None [].

(** [new ExcalidrawCollab(state)] over a storage holding [persisted]
    under the key "state": the [blockConcurrencyWhile] callback reads
    [{ version, elements }], or [{ version: 0, elements: {} }] when nothing
    is stored, and sets [sceneData = { elements }].  A stored [undefined]
    [elements] gives an object without the key, which reads the same. *)
Definition collab_load (persisted : option (jsval * Z)) (now : Z) (fails : bool)
  : collab :=
  let '(elements, version) :=
    match persisted with Some p => p | None => (Val (JObj []), 0) end in
  mkCollab [] [] 0 []
    (match elements with Val e => JObj [("elements", e)] | _ => JObj [] end)
    version throttle_init now fails persisted [].

(** *** [WatchTarget] (package @deco/actors/watch, not part of this
    repository): one buffer per subscriber; [notify] appends the event to
    every buffer registered at that moment. *)

Definition notify (e : event) (s : collab) : collab :=
  let s1 := set_subs (map (fun p => (fst p, snd p ++ [e])) (subs s))
              (next_sub s) s in
  mkCollab (collaborators s1) (subs s1) (next_sub s1) (notified s ++ [e])
    (sceneData s1) (sceneVersion s1) (saver s1) (clock s1) (storage_fails s1)
    (stored s1) (rejections s1).

Definition subscribe (s : collab) : collab * nat :=
  (set_subs (subs s ++ [(next_sub s, [])]) (S (next_sub s)) s, next_sub s).

Definition unsubscribe (h : nat) (s : collab) : collab :=
  set_subs (filter (fun p => negb (Nat.eqb (fst p) h)) (subs s)) (next_sub s) s.

(** A JS property read [d.k] on the document; [None] is the TypeError of a
    read on [null]. *)
Definition read (d : json) (k : string) : option jsval :=
  match d with
  | JNull => None
  | JObj o => Some (get o k)
  | _ => Some Undef
  end.

(** ** Durable save *)

Definition SAVE_EVERY_10_SECONDS_MS : Z := 1000 * 10.

(** The async function given to [throttle] in the constructor:
    [await this.state.storage.put("state", { elements, version })].  Its
    promise is dropped by [throttle], so a rejection stays unhandled. *)
Definition save_state (s : collab) : collab :=
  match read (sceneData s) "elements" with
  | None => set_saved (stored s) (rejections s ++ [(Undef, sceneVersion s)]) s
  | Some els =>
      if storage_fails s
      then set_saved (stored s) (rejections s ++ [(els, sceneVersion s)]) s
      else set_saved (Some (els, sceneVersion s)) (rejections s) s
  end.

(** [this.throttledSaveState()]. *)
Definition throttledSaveState (s : collab) : collab :=
  let '(t, w) := throttle_call SAVE_EVERY_10_SECONDS_MS (clock s) (saver s) in
  let s1 := set_saver t s in
  if w then save_state s1 else s1.

(** The [setTimeout] callback of [throttledSaveState], run by the event loop
    once it is due. *)
Definition save_timer_fires (s : collab) : collab :=
  let '(t, w) := throttle_fire (clock s) (saver s) in
  let s1 := set_saver t s in
  if w then save_state s1 else s1.

(** ** Results of the merge entry points *)

(** [PatchResponse]: [{ elements, version, conflict? }]. *)
Record response : Type := mkResponse {
  resp_elements : jsval;
  resp_version : Z;
  resp_conflict : bool
}.

(** A call returns, or throws after the mutations it made so far. *)
Inductive outcome (A : Type) : Type :=
| Returns (s : collab) (a : A)
| Throws (s : collab).
Arguments Returns {A} s a.
Arguments Throws {A} s.

(** ** Field-level merge: [patch] with a record of elements *)

(** [this.sceneData.elements] as a plain object, with the other fields of
    the scene.  An [elements] that is not a plain object (only reachable
    through a structural merge that overwrote it) is outside the model: the
    loop body then counts as throwing. *)
Definition elements_of (d : json) : option (obj * obj) :=
  match d with
  | JObj dd =>
      match own "elements" dd with
      | Some (JObj els) => Some (dd, els)
      | _ => None
      end
  | _ => None
  end.

Definition put_elements (dd els : obj) : json := JObj (obj_set "elements" (JObj els) dd).

(** ["deleted" in partialElement]: [Some true] for a tombstone, [Some false]
    for a replacement, [None] for the TypeError of [in] on a non-object. *)
Definition is_deleted (pe : json) : option bool :=
  match pe with
  | JObj o => Some (match own "deleted" o with Some _ => true | None => false end)
  | JArr _ => Some false
  | _ => None
  end.

(** The replacement test
    [!element || partialElement.updated > element.updated]. *)
Definition accepts (element : jsval) (pe : json) : bool :=
  negb (truthy element) || gt_updated (updated_of (Val pe)) (updated_of element).

(** One iteration of the [for ... of Object.entries(patchOrPartials)] loop.
    [diff] is [patchOrPartials] itself, from which stale entries are
    deleted.  [None]: the iteration throws. *)
Definition fl_step (d : json) (diff : obj) (kv : string * json)
  : option (json * obj) :=
  let '(elementId, partialElement) := kv in
  match is_deleted partialElement with
  | None => None
  | Some del =>
      match elements_of d with
      | None => None
      | Some (dd, els) =>
          if del then Some (put_elements dd (obj_del elementId els), diff)
          else
            let element := get els elementId in
            if accepts element partialElement
            then Some (put_elements dd (obj_set elementId partialElement els), diff)
            else Some (d, obj_del elementId diff)
      end
  end.

(** The loop over the entries; the boolean is false when an iteration threw,
    the scene then holds the mutations of the earlier iterations. *)
Fixpoint fl_loop (d : json) (diff : obj) (es : list (string * json))
  : json * obj * bool :=
  match es with
  | [] => (d, diff, true)
  | kv :: es' =>
      match fl_step d diff kv with
      | None => (d, diff, false)
      | Some (d', diff') => fl_loop d' diff' es'
      end
  end.

(** [patch(patchOrPartials)] for a record (the non-array branch). *)
Definition patch_fields (s : collab) (patchOrPartials : obj)
  : outcome response :=
  let '(d, diff, ok) := fl_loop (sceneData s) patchOrPartials patchOrPartials in
  let s1 := set_sceneData d s in
  if negb ok then Throws s1
  else
    (* nextState = { version: ++this.sceneVersion, elements: this.sceneData.elements } *)
    let v := sceneVersion s1 + 1 in
    let s2 := set_sceneVersion v s1 in
    match read (sceneData s2) "elements" with
    | None => Throws s2
    | Some els =>
        let s3 := throttledSaveState s2 in
        let s4 := notify (SceneElementsDiff diff v) s3 in
        Returns s4 (mkResponse els v false)
    end.

(** ** Structural merge: [patch] with JSON-patch operations

    [fjp] is the fast-json-patch package (not part of this repository).
    [ops.reduce(fjp.applyReducer, this.sceneData)] calls
    [applyOperation(document, operation)] with its defaults
    [validateOperation = false] and [mutateDocument = true]: every operation
    whose path is not the root mutates the accumulated document in place.
    The operations of the scene protocol are add, remove, replace and test;
    a path is the list of its reference tokens (path [""] is [[]]). *)

Inductive op_kind : Type := OpAdd | OpRemove | OpReplace | OpTest.

Record operation : Type := mkOp {
  op : op_kind;
  path : list string;
  value : json
}.

(** [_areEquals]: deep equality, key order of objects ignored. *)
Fixpoint json_eqb (a b : json) : bool :=
  match a, b with
  | JNull, JNull => true
  | JBool x, JBool y => Bool.eqb x y
  | JNum x, JNum y => Z.eqb x y
  | JStr x, JStr y => String.eqb x y
  | JArr xs, JArr ys =>
      (fix go (xs ys : list json) : bool :=
         match xs, ys with
         | [], [] => true
         | x :: xs', y :: ys' => json_eqb x y && go xs' ys'
         | _, _ => false
         end) xs ys
  | JObj xs, JObj ys =>
      Nat.eqb (length xs) (length ys) &&
      (fix go (xs : list (string * json)) : bool :=
         match xs with
         | [] => true
         | (k, x) :: xs' =>
             match own k ys with
             | Some y => json_eqb x y
             | None => false
             end && go xs'
         end) xs
  | _, _ => false
  end.

(** [isInteger(key)] (only decimal digits, the empty token included) and
    the index [~~key]. *)
Fixpoint digits_value (s : string) (acc : nat) : option nat :=
  match s with
  | EmptyString => Some acc
  | String c s' =>
      let n := Ascii.nat_of_ascii c in
      if Nat.leb 48 n && Nat.leb n 57
      then digits_value s' (acc * 10 + (n - 48))%nat
      else None
  end.

(** Array index of a token: ["-"] is the length.  Other non-integer tokens
    name non-index properties of a JS array, which have no JSON counterpart;
    they are outside the model and counted as throwing. *)
Definition array_index (key : string) (l : list json) : option nat :=
  if String.eqb key "-" then Some (length l) else digits_value key 0.

Fixpoint list_insert (i : nat) (v : json) (l : list json) : list json :=
  match i, l with
  | O, _ => v :: l
  | S i', x :: l' => x :: list_insert i' v l'
  | S _, [] => [v]
  end.

Fixpoint list_remove (i : nat) (l : list json) : list json :=
  match i, l with
  | _, [] => []
  | O, _ :: l' => l'
  | S i', x :: l' => x :: list_remove i' l'
  end.

(** [arr[i] = v]; past the end the array grows with holes (JSON [null]). *)
Fixpoint list_store (i : nat) (v : json) (l : list json) : list json :=
  match i, l with
  | O, [] => [v]
  | O, _ :: l' => v :: l'
  | S i', [] => JNull :: list_store i' v []
  | S i', x :: l' => x :: list_store i' v l'
  end.

(** [objOps] and [arrOps] at the last token; [None]: the operation throws
    (failed test included) before any mutation. *)
Definition apply_last (o : op_kind) (v : json) (key : string) (node : json)
  : option json :=
  match node with
  | JObj m =>
      match o with
      | OpAdd | OpReplace => Some (JObj (obj_set key v m))
      | OpRemove => Some (JObj (obj_del key m))
      | OpTest =>
          match own key m with
          | Some x => if json_eqb x v then Some node else None
          | None => None
          end
      end
  | JArr l =>
      match array_index key l with
      | None => None
      | Some i =>
          match o with
          | OpAdd => Some (JArr (list_insert i v l))
          | OpRemove => Some (JArr (list_remove i l))
          | OpReplace => Some (JArr (list_store i v l))
          | OpTest =>
              match nth_error l i with
              | Some x => if json_eqb x v then Some node else None
              | None => None
              end
          end
      end
  | _ => None  (** [null]: TypeError; other primitives: outside the model *)
  end.

(** Walk of [applyOperation] down the tokens, [prev] being the previous
    token (the empty leading token at first), with the
    [banPrototypeModifications] check.  Only own properties are followed. *)
Fixpoint apply_at (o : op_kind) (v : json) (prev : string) (keys : list string)
    (node : json) : option json :=
  match keys with
  | [] => None
  | key :: rest =>
      if String.eqb key "__proto__" ||
         (String.eqb key "prototype" && String.eqb prev "constructor")
      then None
      else
        match rest with
        | [] => apply_last o v key node
        | _ :: _ =>
            match node with
            | JObj m =>
                match own key m with
                | Some child =>
                    match apply_at o v key rest child with
                    | Some child' => Some (JObj (obj_set key child' m))
                    | None => None
                    end
                | None => None
                end
            | JArr l =>
                match array_index key l with
                | Some i =>
                    match nth_error l i with
                    | Some child =>
                        match apply_at o v key rest child with
                        | Some child' => Some (JArr (list_store i child' l))
                        | None => None
                        end
                    | None => None
                    end
                | None => None
                end
            | _ => None
            end
        end
  end.

(** The accumulator of the reduce: still the object [this.sceneData]
    (mutated in place), or a new document produced by a root operation. *)
Inductive acc : Type := AccStore | AccFresh (v : json).

(** [ops.reduce(fjp.applyReducer, this.sceneData)]: the first component is
    the object [this.sceneData] after the in-place mutations, the second the
    reduce result, or [None] when an operation threw. *)
Fixpoint reduce_ops (store : json) (a : acc) (ops : list operation)
  : json * option acc :=
  match ops with
  | [] => (store, Some a)
  | o :: ops' =>
      let cur := match a with AccStore => store | AccFresh v => v end in
      match path o with
      | [] =>
          match op o with
          | OpAdd | OpReplace => reduce_ops store (AccFresh (value o)) ops'
          | OpRemove => reduce_ops store (AccFresh JNull) ops'
          | OpTest =>
              if json_eqb cur (value o) then reduce_ops store a ops'
              else (store, None)
          end
      | keys =>
          match apply_at (op o) (value o) "" keys cur with
          | None => (store, None)
          | Some cur' =>
              match a with
              | AccStore => reduce_ops cur' AccStore ops'
              | AccFresh _ => reduce_ops store (AccFresh cur') ops'
              end
          end
      end
  end.

(** [{ ...this.sceneData, version, conflict: true }]: the spread copies the
    own [elements] property, if any. *)
Definition spread_elements (d : json) : jsval :=
  match d with
  | JObj m => match own "elements" m with Some e => Val e | None => Undef end
  | _ => Undef
  end.

Definition conflict_response (s : collab) : outcome response :=
  Returns s (mkResponse (spread_elements (sceneData s)) (sceneVersion s) true).

(** [jsonPatch(ops)]. *)
Definition jsonPatch (s : collab) (ops : list operation) : outcome response :=
  let '(store', res) := reduce_ops (sceneData s) AccStore ops in
  let s1 := set_sceneData store' s in
  match res with
  | None => conflict_response s1
  | Some a =>
      let sd := match a with AccStore => store' | AccFresh v => v end in
      (* this.sceneVersion++ *)
      let v := sceneVersion s1 + 1 in
      let s2 := set_sceneVersion v s1 in
      (* nextState = { elements: sceneData.elements, ... } *)
      match read sd "elements" with
      | None => conflict_response s2
      | Some els =>
          let s3 := set_sceneData sd s2 in
          let s4 := throttledSaveState s3 in
          let s5 := notify (SceneElementsSynced els v) s4 in
          Returns s5 (mkResponse els v false)
      end
  end.

(** The argument of [patch]: [Array.isArray(patchOrPartials)] selects the
    structural merge. *)
Inductive patch_arg : Type :=
| PatchOps (ops : list operation)
| PatchRecord (r : obj).

Definition patch (s : collab) (a : patch_arg) : outcome response :=
  match a with
  | PatchOps ops => jsonPatch s ops
  | PatchRecord r => patch_fields s r
  end.

(** ** Roster and the [join] generator *)

(** [set(collab)]: store under its id and announce it.  The id
    "__proto__" is outside the model: the JS assignment then replaces the
    roster's prototype instead of adding an entry. *)
Definition set_collab (id : string) (c : collaborator) (s : collab) : collab :=
  notify (CollaboratorUpdated c)
    (set_collaborators (obj_set id c (collaborators s)) s).

(** [update(collab)]: [collab.id && collab.id in this._collaborators];
    [in] also sees the inherited members. *)
Definition update (c : collaborator) (s : collab) : collab :=
  match c_id c with
  | Some id =>
      if negb (String.eqb id "") &&
         (match own id (collaborators s) with
          | Some _ => true
          | None => is_proto_name id
          end)
      then set_collab id c s
      else s
  | None => s
  end.

(** The suspension points of the async generator [join(collab)]: not
    started (with the value [crypto.randomUUID()] would return), at the
    [yield] of the snapshot, inside the [for await] loop, finished. *)
Inductive join_gen : Type :=
| GStart (c : collaborator) (uuid : string)
| GAtSnapshot (id : string) (h : nat)
| GInLoop (id : string) (h : nat)
| GDone.

Inductive gen_result : Type :=
| Yielded (e : event)
| Awaiting   (** waiting on [subscribe.next()] *)
| Failed     (** the generator threw *)
| Finished.

(** The filter of the loop: [event.type === "collaborator-updated" &&
    event.payload.id === collab.id]. *)
Definition is_self (id : string) (e : event) : bool :=
  match e with
  | CollaboratorUpdated p =>
      match c_id p with Some i => String.eqb i id | None => false end
  | _ => false
  end.

(** Consume buffered events until one passes the filter. *)
Fixpoint take_live (id : string) (q : list event) : option event * list event :=
  match q with
  | [] => (None, [])
  | e :: q' => if is_self id e then take_live id q' else (Some e, q')
  end.

Definition queue_of (h : nat) (s : collab) : list event :=
  match find (fun p => Nat.eqb (fst p) h) (subs s) with
  | Some p => snd p
  | None => []
  end.

Definition set_queue (h : nat) (q : list event) (s : collab) : collab :=
  set_subs (map (fun p => if Nat.eqb (fst p) h then (h, q) else p) (subs s))
    (next_sub s) s.

(** One turn of the [for await (const event of subscribe)] loop. *)
Definition live_next (id : string) (h : nat) (s : collab)
  : collab * join_gen * gen_result :=
  let '(r, q') := take_live id (queue_of h s) in
  let s1 := set_queue h q' s in
  match r with
  | Some e => (s1, GInLoop id h, Yielded e)
  | None => (s1, GInLoop id h, Awaiting)
  end.

(** [next()] on the generator. *)
Definition gen_next (s : collab) (g : join_gen) : collab * join_gen * gen_result :=
  match g with
  | GStart c uuid =>
      (* collab.id ??= crypto.randomUUID() *)
      let id := match c_id c with Some i => i | None => uuid end in
      let c' := mkCollaborator (Some id) (c_fields c) in
      let '(s1, h) := subscribe s in
      let s2 := set_collab id c' s1 in
      (* subscribe.return is overridden here to run leave() first *)
      match read (sceneData s2) "elements" with
      | None => (s2, GDone, Failed)
      | Some els =>
          (s2, GAtSnapshot id h,
           Yielded (SceneSynced els (collaborators s2) (sceneVersion s2)))
      end
  | GAtSnapshot id h => live_next id h s
  | GInLoop id h => live_next id h s
  | GDone => (s, GDone, Finished)
  end.

(** [leave()]. *)
Definition leave (id : string) (s : collab) : collab :=
  notify (CollaboratorLeft id) (set_collaborators (obj_del id (collaborators s)) s).

(** [return()] on the generator suspended at a [yield].  Only the [yield]
    inside the [for await] loop is enclosed by it: closing there calls
    [subscribe.return], i.e. [leave()] and then the [WatchTarget]'s own
    [return], which unregisters the buffer.  [GInLoop] here is the
    generator suspended at the loop's [yield]; a [return()] issued while it
    waits on [subscribe.next()] (after [Awaiting]) is queued by JS until the
    next yield, which this function does not represent. *)
Definition gen_return (s : collab) (g : join_gen) : collab * join_gen :=
  match g with
  | GStart _ _ => (s, GDone)
  | GAtSnapshot _ _ => (s, GDone)
  | GInLoop id h => (unsubscribe h (leave id s), GDone)
  | GDone => (s, GDone)
  end.

(** ** The previous version of the class (src/collab.ts, lines 261-416)

    The same state, with the methods of the earlier [ExcalidrawCollab]. *)

(** Old [update(collab)]: [this._collaborators[collab.id!] = collab] with
    no membership test, then the announcement; a missing id is the key
    "undefined". *)
Definition old_update (c : collaborator) (s : collab) : collab :=
  let key := match c_id c with Some i => i | None => "undefined" end in
  notify (CollaboratorUpdated c)
    (set_collaborators (obj_set key c (collaborators s)) s).

(** Old [async patch(ops)]: the operations are reduced as in [jsonPatch];
    [nextState] carries [this.sceneVersion + 1], which is never stored back;
    [this.sceneData] is replaced before [await this.state.storage.put], and
    a rejection of that put is caught with the rest.  The [catch] answers
    [{ ...this.sceneData, version: this.sceneVersion }], with no conflict
    flag. *)
Definition old_patch (s : collab) (ops : list operation) : outcome response :=
  let '(store', res) := reduce_ops (sceneData s) AccStore ops in
  let s1 := set_sceneData store' s in
  let caught (s' : collab) : outcome response :=
    Returns s' (mkResponse (spread_elements (sceneData s')) (sceneVersion s') false) in
  match res with
  | None => caught s1
  | Some a =>
      let sd := match a with AccStore => store' | AccFresh v => v end in
      match read sd "elements" with
      | None => caught s1
      | Some els =>
          let v := sceneVersion s1 + 1 in
          let s2 := set_sceneData sd s1 in
          if storage_fails s2 then caught s2
          else
            let s3 := set_saved (Some (els, v)) (rejections s2) s2 in
            Returns (notify (SceneElementsSynced els v) s3) (mkResponse els v false)
      end
  end.

(** ** [interleave] (src/util.ts)

    A source is the list of the values its iterator still has to produce;
    [next()] on an exhausted iterator keeps answering done.  The value a
    promise of [nextPromises] settles with is fixed when [next()] is called;
    which settled promise wins [Promise.race] is the scheduler's choice,
    given as the position in [nextPromises]. *)

Section Interleave.
Variable T : Type.

Inductive iter_result : Type :=
| Done
| Value (x : T).

Record mux : Type := mkMux {
  iterators : list (list T);
  nextPromises : list iter_result
}.

(** [iterators[i].next()]. *)
Definition iter_next (its : list (list T)) (i : nat)
  : list (list T) * iter_result :=
  match nth_error its i with
  | Some (x :: rest) =>
      (firstn i its ++ rest :: skipn (S i) its, Value x)
  | _ => (its, Done)
  end.

Fixpoint next_all (its : list (list T)) (i : nat) (n : nat)
  : list (list T) * list iter_result :=
  match n with
  | O => (its, [])
  | S n' =>
      let '(its1, r) := iter_next its i in
      let '(its2, rs) := next_all its1 (S i) n' in
      (its2, r :: rs)
  end.

(** [const nextPromises = iterators.map((iterator) => iterator.next())]. *)
Definition mux_init (sources : list (list T)) : mux :=
  let '(its, ps) := next_all sources 0 (length sources) in
  mkMux its ps.

Fixpoint replace_nth (i : nat) (r : iter_result) (l : list iter_result)
  : list iter_result :=
  match i, l with
  | _, [] => []
  | O, _ :: l' => r :: l'
  | S i', x :: l' => x :: replace_nth i' r l'
  end.

(** One turn of the [while] loop when the promise at position [index]
    wins the race: the value it yields, if any. *)
Definition mux_step (m : mux) (index : nat) : option (mux * option T) :=
  match nth_error (nextPromises m) index with
  | None => None
  | Some Done =>
      (* nextPromises.splice(index, 1) *)
      Some (mkMux (iterators m)
              (firstn index (nextPromises m) ++ skipn (S index) (nextPromises m)),
            None)
  | Some (Value x) =>
      (* yield value; nextPromises[index] = iterators[index].next() *)
      let '(its, r) := iter_next (iterators m) index in
      Some (mkMux its (replace_nth index r (nextPromises m)), Some x)
  end.

(** Run the loop along a schedule; the output is the yielded values, and
    the final state ([nextPromises = []] means the generator returned). *)
Fixpoint mux_run (m : mux) (sched : list nat) : list T * mux :=
  match sched with
  | [] => ([], m)
  | i :: sched' =>
      match nextPromises m with
      | [] => ([], m)
      | _ :: _ =>
          match mux_step m i with
          | None => ([], m)
          | Some (m', y) =>
              let '(out, mf) := mux_run m' sched' in
              (match y with Some x => x :: out | None => out end, mf)
          end
      end
  end.

Definition mux_terminated (m : mux) : bool :=
  match nextPromises m with [] => true | _ => false end.
End Interleave.

Arguments Done {T}.
Arguments Value {T} x.
Arguments mkMux {T} iterators nextPromises.
Arguments mux_init {T} sources.
Arguments mux_run {T} m sched.
Arguments mux_terminated {T} m.
Arguments iterators {T} m.
Arguments nextPromises {T} m.

(** ** Executions of [interleave] over two sources *)

(** [merge_prefix a b out]: [out] is a prefix of an interleaving of [a] and
    [b] that keeps the order of each. *)
Inductive merge_prefix {T : Type} : list T -> list T -> list T -> Prop :=
| mp_nil a b : merge_prefix a b []
| mp_l x a b out : merge_prefix a b out -> merge_prefix (x :: a) b (x :: out)
| mp_r x a b out : merge_prefix a b out -> merge_prefix a (x :: b) (x :: out).

(** The value held by a settled promise, and the requirement that a
    promise reporting done belongs to an exhausted iterator. *)
Definition pend {T : Type} (h : iter_result T) : list T :=
  match h with Done => [] | Value x => [x] end.

Definition fresh_ok {T : Type} (h : iter_result T) (r : list T) : Prop :=
  h = Done -> r = [].

(** The shapes the two-source state takes: both promises pending, the
    first source spliced out, the second one spliced out (the iterators
    keep their positions), or none left. *)
Inductive mux_inv {T : Type} : list T -> list T -> mux T -> Prop :=
| inv_both r0 r1 h0 h1 :
    fresh_ok h0 r0 -> fresh_ok h1 r1 ->
    mux_inv (pend h0 ++ r0) (pend h1 ++ r1) (mkMux [r0; r1] [h0; h1])
| inv_second r1 h1 :
    mux_inv [] (pend h1 ++ r1) (mkMux [[]; r1] [h1])
| inv_first r0 r1 h0 :
    fresh_ok h0 r0 ->
    mux_inv (pend h0 ++ r0) [] (mkMux [r0; r1] [h0])
| inv_done its a b :
    mux_inv a b (mkMux its []).

(** ** Per-key reading of the field-level merge *)

Definition is_tomb (pe : json) : bool :=
  match pe with
  | JObj o => match own "deleted" o with Some _ => true | None => false end
  | _ => false
  end.

(** [this.sceneData.elements[k]] when the own property of [k] is [cur]. *)
Definition lookup_js (k : string) (cur : option json) : jsval :=
  match cur with
  | Some v => Val v
  | None => if is_proto_name k then Inherited else Undef
  end.

(** What one entry [pe] of a call does to the element stored under [k]. *)
Definition step_key (k : string) (cur : option json) (pe : option json)
  : option json :=
  match pe with
  | None => cur
  | Some p =>
      if is_tomb p then None
      else if accepts (lookup_js k cur) p then Some p else cur
  end.

(** The entries that stay in [patchOrPartials], hence in the diff. *)
Definition kept (els : obj) (kv : string * json) : bool :=
  is_tomb (snd kv) || accepts (get els (fst kv)) (snd kv).

Definition keys_of (r : obj) : list string := map fst r.

(** The declared type of the entries: every value is an object. *)
Definition entries_are_objects (r : obj) : Prop :=
  Forall (fun kv => exists o, snd kv = JObj o) r.

(** Sequences of field-level merges. *)
Fixpoint run_fields (s : collab) (rs : list obj) : outcome unit :=
  match rs with
  | [] => Returns s tt
  | r :: rs' =>
      match patch_fields s r with
      | Returns s' _ => run_fields s' rs'
      | Throws s' => Throws s'
      end
  end.

Definition elements_now (s : collab) : option obj :=
  match elements_of (sceneData s) with
  | Some (_, els) => Some els
  | None => None
  end.

(** The entries offered for [k] over a sequence of calls. *)
Definition offers (k : string) (rs : list obj) : list json :=
  flat_map (fun r => match own k r with Some v => [v] | None => [] end) rs.

(** Reading the offers left to right: whether a tombstone was offered, and
    the replacements offered after the last one. *)
Fixpoint since_tomb_from (t : bool) (l : list json) (offs : list json)
  : bool * list json :=
  match offs with
  | [] => (t, l)
  | o :: rest =>
      if is_tomb o then since_tomb_from true [] rest
      else since_tomb_from t (l ++ [o]) rest
  end.

Definition since_tomb (offs : list json) : bool * list json :=
  since_tomb_from false [] offs.

Definition updated_num (v : json) : option Z := updated_of (Val v).

Definition le_updated (a b : json) : Prop :=
  exists x y, updated_num a = Some x /\ updated_num b = Some y /\ x <= y.

(** Element values as the declared type has them: objects with a numeric
    [updated]. *)
Definition wf_element (v : json) : Prop :=
  exists o u, v = JObj o /\ own "updated" o = Some (JNum u).

(** ** Lemmas on plain objects *)

Lemma own_set_same {A} (k : string) (v : A) o : own k (obj_set k v o) = Some v.
Proof.
  induction o as [|[k' v'] o IH]; simpl.
  - rewrite String.eqb_refl; reflexivity.
  - destruct (String.eqb k k') eqn:E; simpl.
    + rewrite E; reflexivity.
    + rewrite E; exact IH.
Qed.

Lemma own_set_other {A} (k k' : string) (v : A) o :
  k <> k' -> own k (obj_set k' v o) = own k o.
Proof.
  intros Hne; induction o as [|[k2 v2] o IH]; simpl.
  - apply String.eqb_neq in Hne; rewrite Hne; reflexivity.
  - destruct (String.eqb k' k2) eqn:E; simpl.
    + apply String.eqb_eq in E; subst k2.
      apply String.eqb_neq in Hne; rewrite Hne; reflexivity.
    + destruct (String.eqb k k2); [reflexivity | exact IH].
Qed.

Lemma own_del_same {A} (k : string) (o : list (string * A)) : own k (obj_del k o) = None.
Proof.
  induction o as [|[k' v'] o IH]; simpl; [reflexivity|].
  destruct (String.eqb k' k) eqn:E; simpl.
  - exact IH.
  - rewrite String.eqb_sym, E. exact IH.
Qed.

Lemma own_del_other {A} (k k' : string) (o : list (string * A)) :
  k <> k' -> own k (obj_del k' o) = own k o.
Proof.
  intros Hne; induction o as [|[k2 v2] o IH]; simpl; [reflexivity|].
  destruct (String.eqb k2 k') eqn:E; simpl.
  - apply String.eqb_eq in E; subst k2.
    apply String.eqb_neq in Hne; rewrite Hne; exact IH.
  - destruct (String.eqb k k2); [reflexivity | exact IH].
Qed.

Lemma obj_set_own {A} (k : string) (v : A) o : own k o = Some v -> obj_set k v o = o.
Proof.
  induction o as [|[k' v'] o IH]; simpl; [discriminate|].
  destruct (String.eqb k k') eqn:E.
  - intros H; inversion H; subst; reflexivity.
  - intros H; rewrite (IH H); reflexivity.
Qed.

Lemma own_not_in {A} (k : string) (o : list (string * A)) :
  ~ In k (map fst o) -> own k o = None.
Proof.
  induction o as [|[k' v'] o IH]; simpl; [reflexivity|].
  intros H. destruct (String.eqb k k') eqn:E.
  - apply String.eqb_eq in E; subst; exfalso; apply H; left; reflexivity.
  - apply IH; intros Hin; apply H; right; exact Hin.
Qed.

Lemma obj_del_not_in {A} (k : string) (o : list (string * A)) :
  ~ In k (map fst o) -> obj_del k o = o.
Proof.
  induction o as [|[k' v'] o IH]; simpl; [reflexivity|].
  intros H. destruct (String.eqb k' k) eqn:E.
  - apply String.eqb_eq in E; subst; exfalso; apply H; left; reflexivity.
  - simpl; f_equal; apply IH; intros Hin; apply H; right; exact Hin.
Qed.

Lemma obj_del_app {A} (k : string) (a b : list (string * A)) :
  obj_del k (a ++ b) = obj_del k a ++ obj_del k b.
Proof. unfold obj_del; apply filter_app. Qed.

Lemma get_lookup (els : obj) k : get els k = lookup_js k (own k els).
Proof. unfold get, lookup_js; destruct (own k els); reflexivity. Qed.

Lemma elements_of_put dd els :
  elements_of (put_elements dd els) = Some (obj_set "elements" (JObj els) dd, els).
Proof. unfold elements_of, put_elements. rewrite own_set_same. reflexivity. Qed.

Lemma elements_of_read d dd els :
  elements_of d = Some (dd, els) -> read d "elements" = Some (Val (JObj els)).
Proof.
  unfold elements_of, read, get; destruct d; try discriminate.
  destruct (own "elements" o) as [[]|] eqn:E; try discriminate.
  intros H; inversion H; subst; reflexivity.
Qed.

Lemma kept_ext (els els1 : obj) (es : obj) :
  (forall kv, In kv es -> own (fst kv) els1 = own (fst kv) els) ->
  filter (kept els1) es = filter (kept els) es.
Proof.
  induction es as [|kv es IH]; intros H; simpl; [reflexivity|].
  assert (Hkv : kept els1 kv = kept els kv).
  { unfold kept. rewrite !get_lookup, (H kv (or_introl eq_refl)). reflexivity. }
  rewrite Hkv, IH; [reflexivity|]. intros kv' Hin; apply H; right; exact Hin.
Qed.

Lemma keys_of_app (a b : obj) : keys_of (a ++ b) = keys_of a ++ keys_of b.
Proof. apply map_app. Qed.

Lemma own_cons_other {A} (k k' : string) (v : A) (o : list (string * A)) :
  k <> k' -> own k ((k', v) :: o) = own k o.
Proof. intros H; simpl; apply String.eqb_neq in H; rewrite H; reflexivity. Qed.

Lemma own_cons_same {A} (k : string) (v : A) (o : list (string * A)) :
  own k ((k, v) :: o) = Some v.
Proof. simpl; rewrite String.eqb_refl; reflexivity. Qed.

(** The loop, run over entries with distinct keys that are all objects,
    never throws; each key ends up as [step_key] says, and the diff keeps
    exactly the [kept] entries. *)
Lemma fl_loop_spec : forall es d dd els pre,
  elements_of d = Some (dd, els) ->
  NoDup (keys_of es) ->
  entries_are_objects es ->
  (forall k, In k (keys_of pre) -> ~ In k (keys_of es)) ->
  exists d' dd' els',
    fl_loop d (pre ++ es) es = (d', pre ++ filter (kept els) es, true) /\
    elements_of d' = Some (dd', els') /\
    (forall k, own k els' = step_key k (own k els) (own k es)).
Proof.
  induction es as [|[k pe] es IH]; intros d dd els pre Hd Hnd Hobj Hdisj.
  - exists d, dd, els. simpl. rewrite app_nil_r.
    split; [reflexivity|]. split; [exact Hd|]. intros; reflexivity.
  - simpl in Hnd. inversion Hnd as [|? ? Hk Hnd']; subst.
    inversion Hobj as [|? ? [o Ho] Hobj']; subst. simpl in Ho; subst pe.
    assert (Hes : forall kv, In kv es -> fst kv <> k).
    { intros kv Hin Heq. apply Hk. rewrite <- Heq. apply in_map. exact Hin. }
    assert (Hpre : ~ In k (keys_of pre)).
    { intros Hin. apply (Hdisj k Hin). left; reflexivity. }
    assert (Hdisj' : forall k', In k' (keys_of (pre ++ [(k, JObj o)])) ->
                                ~ In k' (keys_of es)).
    { intros k' Hin. rewrite keys_of_app, in_app_iff in Hin.
      destruct Hin as [Hin|[Hin|[]]].
      - intros Hin2. apply (Hdisj k' Hin). right; exact Hin2.
      - simpl in Hin; subst k'. exact Hk. }
    simpl fl_loop. unfold fl_step. simpl is_deleted. rewrite Hd.
    destruct (own "deleted" o) eqn:Edel.
    + (* tombstone *)
      destruct (IH (put_elements dd (obj_del k els)) _ (obj_del k els)
                  (pre ++ [(k, JObj o)]) (elements_of_put _ _) Hnd' Hobj' Hdisj')
        as (d' & dd' & els' & Hrun & Hd' & Hown).
      rewrite <- app_assoc in Hrun. simpl in Hrun.
      exists d', dd', els'. split; [|split; [exact Hd'|]].
      * rewrite Hrun. rewrite <- app_assoc. simpl.
        unfold kept at 2. simpl. rewrite Edel. simpl.
        rewrite (kept_ext els (obj_del k els)); [reflexivity|].
        intros kv Hin. apply own_del_other. exact (Hes kv Hin).
      * intros k0. rewrite Hown. destruct (String.eqb k0 k) eqn:E.
        -- apply String.eqb_eq in E; subst k0.
           rewrite own_del_same, own_not_in by exact Hk.
           rewrite own_cons_same. simpl. rewrite Edel. reflexivity.
        -- apply String.eqb_neq in E.
           rewrite own_del_other, own_cons_other by exact E. reflexivity.
    + destruct (accepts (get els k) (JObj o)) eqn:Eacc.
      * (* accepted replacement *)
        destruct (IH (put_elements dd (obj_set k (JObj o) els)) _
                    (obj_set k (JObj o) els) (pre ++ [(k, JObj o)])
                    (elements_of_put _ _) Hnd' Hobj' Hdisj')
          as (d' & dd' & els' & Hrun & Hd' & Hown).
        rewrite <- app_assoc in Hrun. simpl in Hrun.
        exists d', dd', els'. split; [|split; [exact Hd'|]].
        -- rewrite Hrun. rewrite <- app_assoc. simpl.
           unfold kept at 2. simpl. rewrite Eacc, orb_true_r.
           rewrite (kept_ext els (obj_set k (JObj o) els)); [reflexivity|].
           intros kv Hin. apply own_set_other. exact (Hes kv Hin).
        -- intros k0. rewrite Hown. destruct (String.eqb k0 k) eqn:E.
           ++ apply String.eqb_eq in E; subst k0.
              rewrite own_set_same, own_not_in by exact Hk.
              rewrite own_cons_same. simpl. rewrite Edel.
              rewrite get_lookup in Eacc. rewrite Eacc. reflexivity.
           ++ apply String.eqb_neq in E.
              rewrite own_set_other, own_cons_other by exact E. reflexivity.
      * (* stale *)
        assert (Hdel : obj_del k (pre ++ (k, JObj o) :: es) = pre ++ es).
        { rewrite obj_del_app, (obj_del_not_in k pre Hpre).
          unfold obj_del at 1. simpl. rewrite String.eqb_refl. simpl.
          fold (obj_del k es). rewrite (obj_del_not_in k es Hk). reflexivity. }
        rewrite Hdel.
        destruct (IH d dd els pre Hd Hnd' Hobj')
          as (d' & dd' & els' & Hrun & Hd' & Hown).
        { intros k' Hin Hin2. apply (Hdisj k' Hin). right; exact Hin2. }
        exists d', dd', els'. split; [|split; [exact Hd'|]].
        -- rewrite Hrun. simpl. unfold kept at 2. simpl. rewrite Edel, Eacc.
           reflexivity.
        -- intros k0. rewrite Hown. destruct (String.eqb k0 k) eqn:E.
           ++ apply String.eqb_eq in E; subst k0.
              rewrite (own_not_in k es Hk).
              rewrite own_cons_same. simpl. rewrite Edel.
              rewrite get_lookup in Eacc. rewrite Eacc. reflexivity.
           ++ apply String.eqb_neq in E.
              rewrite own_cons_other by exact E. reflexivity.
Qed.

(** ** Frame lemmas: saving and notifying leave the scene alone *)

Lemma save_state_frame s :
  sceneData (save_state s) = sceneData s /\
  sceneVersion (save_state s) = sceneVersion s /\
  notified (save_state s) = notified s /\
  collaborators (save_state s) = collaborators s /\
  subs (save_state s) = subs s.
Proof.
  unfold save_state. destruct (read (sceneData s) "elements");
    [destruct (storage_fails s)|]; simpl; repeat split.
Qed.

Lemma throttledSaveState_frame s :
  sceneData (throttledSaveState s) = sceneData s /\
  sceneVersion (throttledSaveState s) = sceneVersion s /\
  notified (throttledSaveState s) = notified s /\
  collaborators (throttledSaveState s) = collaborators s /\
  subs (throttledSaveState s) = subs s.
Proof.
  unfold throttledSaveState.
  destruct (throttle_call SAVE_EVERY_10_SECONDS_MS (clock s) (saver s)) as [t []].
  - destruct (save_state_frame (set_saver t s)) as (H1 & H2 & H3 & H4 & H5).
    rewrite H1, H2, H3, H4, H5. simpl. repeat split.
  - simpl. repeat split.
Qed.

Lemma notify_frame e s :
  sceneData (notify e s) = sceneData s /\
  sceneVersion (notify e s) = sceneVersion s /\
  notified (notify e s) = notified s ++ [e].
Proof. simpl. repeat split. Qed.

(** A field-level merge on a scene whose [elements] is a plain object, with
    entries of the declared type, returns; it bumps the version once and
    notifies exactly one diff event. *)
Lemma patch_fields_spec s r dd els :
  elements_of (sceneData s) = Some (dd, els) ->
  NoDup (keys_of r) ->
  entries_are_objects r ->
  exists s' dd' els',
    patch_fields s r =
      Returns s' (mkResponse (Val (JObj els')) (sceneVersion s + 1) false) /\
    elements_of (sceneData s') = Some (dd', els') /\
    sceneVersion s' = sceneVersion s + 1 /\
    notified s' =
      notified s ++ [SceneElementsDiff (filter (kept els) r) (sceneVersion s + 1)] /\
    (forall k, own k els' = step_key k (own k els) (own k r)).
Proof.
  intros Hd Hnd Hobj.
  destruct (fl_loop_spec r (sceneData s) dd els [] Hd Hnd Hobj)
    as (d' & dd' & els' & Hrun & Hd' & Hown).
  { intros k []. }
  simpl in Hrun. unfold patch_fields. rewrite Hrun. simpl negb. cbv iota.
  set (s2 := set_sceneVersion (sceneVersion (set_sceneData d' s) + 1)
               (set_sceneData d' s)).
  assert (Hs2d : sceneData s2 = d') by reflexivity.
  assert (Hs2v : sceneVersion s2 = sceneVersion s + 1) by reflexivity.
  assert (Hs2n : notified s2 = notified s) by reflexivity.
  rewrite Hs2d, (elements_of_read d' dd' els' Hd').
  destruct (throttledSaveState_frame s2) as (H1 & H2 & H3 & _).
  destruct (notify_frame (SceneElementsDiff (filter (kept els) r)
                            (sceneVersion s + 1)) (throttledSaveState s2))
    as (N1 & N2 & N3).
  exists (notify (SceneElementsDiff (filter (kept els) r) (sceneVersion s + 1))
            (throttledSaveState s2)), dd', els'.
  split; [reflexivity|].
  split; [rewrite N1, H1, Hs2d; exact Hd'|].
  split; [rewrite N2, H2, Hs2v; reflexivity|].
  split; [rewrite N3, H3, Hs2n; reflexivity|].
  exact Hown.
Qed.

(** ** Runs of the throttled function *)

Lemma throttle_run_app D evs1 : forall t evs2,
  throttle_run D t (evs1 ++ evs2) =
  let '(t1, ws1) := throttle_run D t evs1 in
  let '(t2, ws2) := throttle_run D t1 evs2 in
  (t2, ws1 ++ ws2).
Proof.
  induction evs1 as [|ev evs1 IH]; intros t evs2; simpl.
  - destruct (throttle_run D t evs2); reflexivity.
  - destruct ev as [now|now];
      [destruct (throttle_call D now t) as [t1 w]|destruct (throttle_fire now t) as [t1 w]];
      rewrite IH; destruct (throttle_run D t1 evs1) as [t2 ws1];
      destruct (throttle_run D t2 evs2) as [t3 ws2]; rewrite app_assoc; reflexivity.
Qed.

(** A pending timer is due [D] after the last write. *)
Definition due_inv (D : Z) (t : throttle_state) : Prop :=
  forall due, timeoutId t = Some due -> due = lastCall t + D.

Lemma throttle_run_due_inv D evs : forall t,
  due_inv D t -> due_inv D (fst (throttle_run D t evs)).
Proof.
  induction evs as [|ev evs IH]; intros t Ht; simpl; [exact Ht|].
  destruct ev as [now|now].
  - unfold throttle_call.
    destruct (Z.geb_spec (now - lastCall t) D).
    + destruct (throttle_run D (mkThrottle now None) evs) as [tf ws] eqn:E.
      change tf with (fst (tf, ws)). rewrite <- E. apply IH.
      intros due Hd; discriminate Hd.
    + destruct (timeoutId t) as [d|] eqn:Et.
      * destruct (throttle_run D t evs) as [tf ws] eqn:E.
        change tf with (fst (tf, ws)). rewrite <- E. apply IH. exact Ht.
      * destruct (throttle_run D (mkThrottle (lastCall t)
                    (Some (now + (D - (now - lastCall t))))) evs) as [tf ws] eqn:E.
        change tf with (fst (tf, ws)). rewrite <- E. apply IH.
        intros due Hd. simpl in Hd. inversion Hd. simpl. lia.
  - unfold throttle_fire. destruct (timeoutId t) as [d|].
    + destruct (throttle_run D (mkThrottle now None) evs) as [tf ws] eqn:E.
      change tf with (fst (tf, ws)). rewrite <- E. apply IH.
      intros due Hd; discriminate Hd.
    + destruct (throttle_run D t evs) as [tf ws] eqn:E.
      change tf with (fst (tf, ws)). rewrite <- E. apply IH. exact Ht.
Qed.

(** ** Sequences of field-level merges, key by key *)

Definition key_fold (k : string) (cur : option json) (offs : list json)
  : option json :=
  fold_left (fun c p => step_key k c (Some p)) offs cur.

Definition entry_ok (kv : string * json) : Prop :=
  is_tomb (snd kv) = true \/ wf_element (snd kv).

Definition record_ok (r : obj) : Prop :=
  NoDup (keys_of r) /\ Forall entry_ok r.

Lemma entry_ok_object kv : entry_ok kv -> exists o, snd kv = JObj o.
Proof.
  intros [H|(o & u & H & _)].
  - destruct (snd kv); try discriminate. eexists; reflexivity.
  - eexists; exact H.
Qed.

Lemma record_ok_objects r : record_ok r -> entries_are_objects r.
Proof.
  intros [_ H]. unfold entries_are_objects.
  eapply Forall_impl; [|exact H]. intros kv; apply entry_ok_object.
Qed.

Lemma run_fields_key s rs dd els :
  elements_of (sceneData s) = Some (dd, els) ->
  Forall record_ok rs ->
  exists s' els',
    run_fields s rs = Returns s' tt /\ elements_now s' = Some els' /\
    forall k, own k els' = key_fold k (own k els) (offers k rs).
Proof.
  revert s dd els. induction rs as [|r rs IH]; intros s dd els Hd Hrs.
  - exists s, els. simpl. unfold elements_now. rewrite Hd. auto.
  - inversion Hrs as [|? ? Hr Hrs']; subst.
    destruct (patch_fields_spec s r dd els Hd (proj1 Hr) (record_ok_objects r Hr))
      as (s1 & dd1 & els1 & Hp & Hd1 & _ & _ & Hown1).
    destruct (IH s1 dd1 els1 Hd1 Hrs') as (s' & els' & Hrun & Hnow & Hown).
    exists s', els'. simpl. rewrite Hp. split; [exact Hrun|]. split; [exact Hnow|].
    intros k. rewrite Hown, Hown1. unfold key_fold. simpl.
    destruct (own k r) as [v|]; reflexivity.
Qed.

(** The invariant of [key_fold] against [since_tomb_from]. *)
Definition lww_inv (init : option json) (t : bool) (l : list json)
    (cur : option json) : Prop :=
  (cur = None -> l = [] /\ (t = false -> init = None)) /\
  (t = true -> l = [] -> cur = None) /\
  (forall e, cur = Some e ->
     wf_element e /\
     (In e l \/ (t = false /\ init = Some e)) /\
     Forall (fun o => le_updated o e) l /\
     (t = false -> forall e0, init = Some e0 -> le_updated e0 e)).

Lemma wf_updated e : wf_element e -> exists u, updated_num e = Some u.
Proof.
  intros (o & u & -> & Hu). exists u. unfold updated_num, updated_of. rewrite Hu.
  reflexivity.
Qed.

Lemma le_updated_refl e : wf_element e -> le_updated e e.
Proof. intros H. destruct (wf_updated e H) as [u Hu]. exists u, u. split; [exact Hu|]. split; [exact Hu|lia]. Qed.

Lemma le_updated_trans a b c x y :
  le_updated a b -> updated_num b = Some x -> updated_num c = Some y -> x <= y ->
  le_updated a c.
Proof.
  intros (p & q & Ha & Hb & Hpq) Hb' Hc Hxy. rewrite Hb in Hb'. inversion Hb'; subst.
  exists p, y. split; [exact Ha|]. split; [exact Hc|lia].
Qed.

Lemma key_fold_inv k :
  is_proto_name k = false ->
  forall offs cur t l init,
  Forall (fun o => is_tomb o = true \/ wf_element o) offs ->
  lww_inv init t l cur ->
  lww_inv init (fst (since_tomb_from t l offs)) (snd (since_tomb_from t l offs))
    (key_fold k cur offs).
Proof.
  intros Hk offs. induction offs as [|o offs IH]; intros cur t l init Hoffs Hinv.
  - exact Hinv.
  - inversion Hoffs as [|? ? Ho Hoffs']; subst.
    change (key_fold k cur (o :: offs))
      with (key_fold k (step_key k cur (Some o)) offs).
    change (since_tomb_from t l (o :: offs))
      with (if is_tomb o then since_tomb_from true [] offs
            else since_tomb_from t (l ++ [o]) offs).
    unfold step_key. destruct (is_tomb o) eqn:Et.
    + apply IH; [exact Hoffs'|]. unfold lww_inv.
      split; [intros _; split; [reflexivity|intros H; discriminate]|].
      split; [intros _ _; reflexivity|]. intros e He; discriminate.
    + destruct Ho as [Ho|Ho]; [congruence|].
      destruct (wf_updated o Ho) as [uo Huo].
      apply IH; [exact Hoffs'|]. unfold lww_inv.
      destruct Hinv as (Hnone & Htl & Hsome).
      destruct cur as [e|].
      * destruct (Hsome e eq_refl) as (He & Hin & Hall & Hinit).
        destruct (wf_updated e He) as [ue Hue].
        destruct He as (oe & u' & Heq & Hu'). subst e.
        unfold accepts, updated_num in *. simpl truthy. simpl negb.
        assert (Hue' : updated_of (lookup_js k (Some (JObj oe))) = Some u')
          by (simpl; rewrite Hu'; reflexivity).
        rewrite Huo, Hue'. simpl orb. unfold gt_updated.
        unfold updated_of in Hue. rewrite Hu' in Hue. inversion Hue; subst ue.
        destruct (Z.gtb uo u') eqn:Egt.
        -- apply Z.gtb_lt in Egt.
           split; [intros H; discriminate|].
           split; [intros _ H; destruct l; discriminate|].
           intros e' He'. inversion He'; subst e'. split; [exact Ho|].
           split; [left; apply in_or_app; right; left; reflexivity|].
           split.
           ++ apply Forall_app. split.
              ** eapply Forall_impl; [|exact Hall]. intros x Hx.
                 eapply le_updated_trans; [exact Hx| |exact Huo|].
                 { unfold updated_num, updated_of. rewrite Hu'. reflexivity. }
                 lia.
              ** constructor; [apply le_updated_refl; exact Ho|constructor].
           ++ intros Ht e0 He0. eapply le_updated_trans.
              ** exact (Hinit Ht e0 He0).
              ** unfold updated_num, updated_of. rewrite Hu'. reflexivity.
              ** exact Huo.
              ** lia.
        -- assert (Hle : uo <= u').
           { destruct (Z.gtb_spec uo u'); [discriminate|lia]. }
           split; [intros H; discriminate|].
           split; [intros _ H; destruct l; discriminate|].
           intros e' He'. inversion He'; subst e'.
           split; [exists oe, u'; auto|].
           split; [destruct Hin as [Hin|Hin]; [left; apply in_or_app; left; exact Hin|right; exact Hin]|].
           split; [|exact Hinit].
           apply Forall_app. split; [exact Hall|].
           constructor; [|constructor]. exists uo, u'. split; [exact Huo|].
           split; [unfold updated_num, updated_of; rewrite Hu'; reflexivity|exact Hle].
      * destruct (Hnone eq_refl) as [Hl Hinit0]. subst l.
        unfold accepts, lookup_js. rewrite Hk. simpl.
        split; [intros H; discriminate|].
        split; [intros _ H; discriminate|].
        intros e' He'. inversion He'; subst e'. split; [exact Ho|].
        split; [left; left; reflexivity|].
        split; [constructor; [apply le_updated_refl; exact Ho|constructor]|].
        intros Ht e0 He0. rewrite (Hinit0 Ht) in He0. discriminate.
Qed.

Lemma own_in {A} (k : string) (v : A) o : own k o = Some v -> In (k, v) o.
Proof.
  induction o as [|[k' v'] o IH]; simpl; [discriminate|].
  destruct (String.eqb k k') eqn:E.
  - intros H; inversion H; subst. apply String.eqb_eq in E; subst. left; reflexivity.
  - intros H; right; exact (IH H).
Qed.

Lemma own_in_nodup (k : string) (v : json) (r : obj) :
  NoDup (keys_of r) -> In (k, v) r -> own k r = Some v.
Proof.
  induction r as [|[k' v'] r IH]; simpl; [intros _ []|].
  intros Hnd Hin. inversion Hnd as [|? ? Hk Hnd']; subst.
  destruct Hin as [Heq|Hin].
  - inversion Heq; subst. rewrite String.eqb_refl. reflexivity.
  - destruct (String.eqb k k') eqn:E.
    + apply String.eqb_eq in E; subst k'. exfalso. apply Hk.
      change k with (fst (k, v)). apply in_map. exact Hin.
    + exact (IH Hnd' Hin).
Qed.

Lemma offers_ok k rs :
  Forall record_ok rs -> Forall (fun o => is_tomb o = true \/ wf_element o) (offers k rs).
Proof.
  induction rs as [|r rs IH]; intros H; simpl; [constructor|].
  inversion H as [|? ? [_ Hr] H']; subst. apply Forall_app. split; [|exact (IH H')].
  destruct (own k r) as [v|] eqn:E; [|constructor].
  constructor; [|constructor].
  rewrite Forall_forall in Hr. exact (Hr (k, v) (own_in k v r E)).
Qed.

(** The replacement rule of the field-level merge, as the spec words it:
    no element stored under the id, or a strictly greater [updated]. *)
Definition accepted_cond (k : string) (els : obj) (pe : json) : Prop :=
  own k els = None \/
  exists e u u', own k els = Some e /\ updated_num e = Some u' /\
                 updated_num pe = Some u /\ u' < u.

Lemma step_key_replacement k els pe :
  is_proto_name k = false ->
  Forall (fun kv => wf_element (snd kv)) els ->
  wf_element pe -> is_tomb pe = false ->
  (accepted_cond k els pe -> step_key k (own k els) (Some pe) = Some pe) /\
  (~ accepted_cond k els pe -> step_key k (own k els) (Some pe) = own k els).
Proof.
  intros Hk Hels Hpe Ht. unfold step_key. rewrite Ht.
  destruct (wf_updated pe Hpe) as [u Hu].
  destruct (own k els) as [e|] eqn:Ee.
  - assert (He : wf_element e).
    { rewrite Forall_forall in Hels. exact (Hels (k, e) (own_in k e els Ee)). }
    destruct He as (oe & u' & -> & Hu').
    assert (Hacc : accepts (lookup_js k (Some (JObj oe))) pe = Z.gtb u u').
    { assert (H1 : updated_of (Val (JObj oe)) = Some u')
        by (simpl; rewrite Hu'; reflexivity).
      unfold accepts. cbn [lookup_js truthy negb orb]. rewrite H1.
      unfold updated_num in Hu. rewrite Hu. reflexivity. }
    rewrite Hacc. split.
    + intros [H|(e' & x & x' & H1 & H2 & H3 & H4)]; [rewrite Ee in H; discriminate|].
      rewrite Ee in H1. inversion H1; subst e'. unfold updated_num, updated_of in H2. rewrite Hu' in H2.
      inversion H2; subst x'. rewrite Hu in H3. inversion H3; subst x.
      replace (Z.gtb u u') with true by (symmetry; apply Z.gtb_lt; lia). reflexivity.
    + intros Hn. destruct (Z.gtb u u') eqn:Eg; [|reflexivity].
      exfalso. apply Hn. right. exists (JObj oe), u, u'.
      split; [exact Ee|]. split; [unfold updated_num, updated_of; rewrite Hu'; reflexivity|].
      split; [exact Hu|]. apply Z.gtb_lt in Eg. lia.
  - unfold accepts, lookup_js. rewrite Hk. simpl.
    split; [reflexivity|]. intros Hn; exfalso; apply Hn; left; exact Ee.
Qed.

(** ** Concrete values used by the examples *)

Definition mk_element (id : string) (u : Z) : json :=
  JObj [("id", JStr id); ("updated", JNum u)].

Definition tombstone : json := JObj [("deleted", JBool true)].

Definition scene0 : collab := collab_init 1700000000000 false.

Definition state_of {A} (o : outcome A) : collab :=
  match o with Returns s _ => s | Throws s => s end.

Definition els_a5 : obj := [("a", mk_element "a" 5)].

Definition scene_a5 : collab := state_of (patch scene0 (PatchRecord els_a5)).

(** A scene where "u1" has joined. *)
Definition scene_u1_joined_u2_left : collab :=
  notify (CollaboratorLeft "u2")
    (fst (fst (gen_next scene0 (GStart (mkCollaborator (Some "u1") []) "uuid")))).

Definition scene_u1 : collab :=
  set_collaborators [("u1", mkCollaborator (Some "u1") [])] scene0.

Example spec_scenario :
  let o1 := patch scene0 (PatchRecord [("a", mk_element "a" 5)]) in
  let o2 := patch (state_of o1) (PatchRecord [("a", mk_element "a" 3)]) in
  let o3 := patch (state_of o2) (PatchRecord [("a", tombstone)]) in
  elements_now (state_of o1) = Some [("a", mk_element "a" 5)] /\
  sceneVersion (state_of o1) = 1 /\
  elements_now (state_of o2) = Some [("a", mk_element "a" 5)] /\
  sceneVersion (state_of o2) = 2 /\
  elements_now (state_of o3) = Some [] /\
  sceneVersion (state_of o3) = 3 /\
  notified (state_of o3) =
    [SceneElementsDiff [("a", mk_element "a" 5)] 1; SceneElementsDiff [] 2;
     SceneElementsDiff [("a", tombstone)] 3].
Proof. vm_compute. repeat split. Qed.

Lemma filter_all_false {A} (f : A -> bool) (l : list A) :
  Forall (fun x => f x = false) l -> filter f l = [].
Proof.
  induction 1 as [|x l Hx _ IH]; [reflexivity|]. simpl. rewrite Hx. exact IH.
Qed.

Lemma own_none_not_in {A} (k : string) (o : list (string * A)) :
  own k o = None -> ~ In k (map fst o).
Proof.
  induction o as [|[k' v'] o IH]; simpl; [tauto|].
  destruct (String.eqb k k') eqn:E; [discriminate|].
  intros Hn [Heq|Hin].
  - subst. rewrite String.eqb_refl in E. discriminate.
  - exact (IH Hn Hin).
Qed.

Lemma elements_of_put_same d dd els :
  elements_of d = Some (dd, els) -> put_elements dd els = d.
Proof.
  destruct d as [| | | | |o]; try discriminate. simpl.
  destruct (own "elements" o) as [j|] eqn:E; [|discriminate].
  destruct j; try discriminate. intros H; inversion H; subst.
  unfold put_elements. rewrite (obj_set_own _ _ _ E). reflexivity.
Qed.

(** ** What a caller of [patch] observes, and its independence from the
    storage back end *)

Definition same_core (s1 s2 : collab) : Prop :=
  collaborators s1 = collaborators s2 /\ subs s1 = subs s2 /\
  next_sub s1 = next_sub s2 /\ notified s1 = notified s2 /\
  sceneData s1 = sceneData s2 /\ sceneVersion s1 = sceneVersion s2 /\
  saver s1 = saver s2 /\ clock s1 = clock s2.

Definition caller_view (o : outcome response)
  : option response * json * Z * list event * list (string * collaborator) :=
  match o with
  | Returns s r => (Some r, sceneData s, sceneVersion s, notified s, collaborators s)
  | Throws s => (None, sceneData s, sceneVersion s, notified s, collaborators s)
  end.

Ltac core_subst H :=
  match goal with
  | s1 : collab, s2 : collab |- _ =>
      destruct s1, s2; unfold same_core in H; simpl in H;
      destruct H as (-> & -> & -> & -> & -> & -> & -> & ->)
  end.

Lemma core_save_state s1 s2 :
  same_core s1 s2 -> same_core (save_state s1) (save_state s2).
Proof.
  intros H. core_subst H. unfold save_state. simpl.
  destruct (read _ "elements"); [destruct storage_fails0, storage_fails1|];
    unfold same_core; simpl; repeat split.
Qed.

Lemma core_set_saver t s1 s2 :
  same_core s1 s2 -> same_core (set_saver t s1) (set_saver t s2).
Proof. intros H. core_subst H. unfold same_core; simpl; repeat split. Qed.

Lemma core_set_sceneData d s1 s2 :
  same_core s1 s2 -> same_core (set_sceneData d s1) (set_sceneData d s2).
Proof. intros H. core_subst H. unfold same_core; simpl; repeat split. Qed.

Lemma core_set_sceneVersion v s1 s2 :
  same_core s1 s2 -> same_core (set_sceneVersion v s1) (set_sceneVersion v s2).
Proof. intros H. core_subst H. unfold same_core; simpl; repeat split. Qed.

Lemma core_notify e s1 s2 :
  same_core s1 s2 -> same_core (notify e s1) (notify e s2).
Proof. intros H. core_subst H. unfold same_core; simpl; repeat split. Qed.

Lemma core_throttledSaveState s1 s2 :
  same_core s1 s2 -> same_core (throttledSaveState s1) (throttledSaveState s2).
Proof.
  intros H. pose proof H as (_ & _ & _ & _ & _ & _ & Hsv & Hcl).
  unfold throttledSaveState. rewrite Hsv, Hcl.
  destruct (throttle_call SAVE_EVERY_10_SECONDS_MS (clock s2) (saver s2)) as [t []].
  - apply core_save_state, core_set_saver, H.
  - apply core_set_saver, H.
Qed.

Lemma core_view_returns s1 s2 (r : response) :
  same_core s1 s2 -> caller_view (Returns s1 r) = caller_view (Returns s2 r).
Proof. intros (Hc & _ & _ & Hn & Hd & Hv & _). simpl. congruence. Qed.

Lemma core_view_throws s1 s2 :
  same_core s1 s2 -> caller_view (Throws (A := response) s1) = caller_view (Throws s2).
Proof. intros (Hc & _ & _ & Hn & Hd & Hv & _). simpl. congruence. Qed.

Lemma core_conflict s1 s2 :
  same_core s1 s2 -> caller_view (conflict_response s1) = caller_view (conflict_response s2).
Proof.
  intros (Hc & _ & _ & Hn & Hd & Hv & _). unfold conflict_response. simpl.
  rewrite Hc, Hn, Hd, Hv. reflexivity.
Qed.

Lemma core_patch s1 s2 a :
  same_core s1 s2 -> caller_view (patch s1 a) = caller_view (patch s2 a).
Proof.
  intros H. pose proof H as (_ & _ & _ & _ & Hd & Hv & _).
  destruct a as [ops|r]; simpl.
  - unfold jsonPatch. rewrite Hd.
    destruct (reduce_ops (sceneData s2) AccStore ops) as [store' [a|]].
    + assert (H1 := core_set_sceneData store' _ _ H).
      change (sceneVersion (set_sceneData store' s1)) with (sceneVersion s1).
      change (sceneVersion (set_sceneData store' s2)) with (sceneVersion s2).
      rewrite Hv.
      assert (H2 := core_set_sceneVersion (sceneVersion s2 + 1) _ _ H1).
      destruct (read _ "elements") as [els|].
      * apply core_view_returns, core_notify, core_throttledSaveState,
          core_set_sceneData, H2.
      * apply core_conflict, H2.
    + apply core_conflict, core_set_sceneData, H.
  - unfold patch_fields. rewrite Hd.
    destruct (fl_loop (sceneData s2) r r) as [[d diff] ok].
    assert (H1 := core_set_sceneData d _ _ H).
    destruct (negb ok); [apply core_view_throws, H1|].
    change (sceneVersion (set_sceneData d s1)) with (sceneVersion s1).
    change (sceneVersion (set_sceneData d s2)) with (sceneVersion s2).
    rewrite Hv.
    assert (H2 := core_set_sceneVersion (sceneVersion s2 + 1) _ _ H1).
    change (sceneData (set_sceneVersion (sceneVersion s2 + 1) (set_sceneData d s1)))
      with d.
    change (sceneData (set_sceneVersion (sceneVersion s2 + 1) (set_sceneData d s2)))
      with d.
    destruct (read d "elements") as [els|].
    + apply core_view_returns, core_notify, core_throttledSaveState, H2.
    + apply core_view_throws, H2.
Qed.

Lemma same_core_storage b s : same_core (set_storage_fails b s) s.
Proof. unfold same_core; simpl; repeat split. Qed.

(** ** The filter of the [join] loop *)

Lemma take_live_spec id q :
  match take_live id q with
  | (Some e, q') => exists pre, q = pre ++ e :: q' /\
                      Forall (fun x => is_self id x = true) pre /\ is_self id e = false
  | (None, q') => Forall (fun x => is_self id x = true) q /\ q' = []
  end.
Proof.
  induction q as [|x q IH]; simpl; [split; [constructor|reflexivity]|].
  destruct (is_self id x) eqn:E.
  - destruct (take_live id q) as [[e|] q'].
    + destruct IH as (pre & Hq & Hpre & He). exists (x :: pre).
      split; [simpl; rewrite Hq; reflexivity|]. split; [constructor; assumption|exact He].
    + destruct IH as [Hall Hq']. split; [constructor; assumption|exact Hq'].
  - exists []. split; [reflexivity|]. split; [constructor|exact E].
Qed.


(** ** Claims on the field-level merge *)

(** C1, counterexample.  Offered for "a": a replacement with [updated = 5],
    a tombstone, a replacement with [updated = 3].  The tombstone leaves no
    trace in the store, so the last replacement is accepted as a new
    element: "a" is present although tombstoned, and carries [updated = 3],
    not the highest [updated] offered (5). *)
Lemma field_merge_readd_after_tombstone :
  match run_fields scene0
          [[("a", mk_element "a" 5)]; [("a", tombstone)]; [("a", mk_element "a" 3)]]
  with
  | Returns s _ => elements_now s = Some [("a", mk_element "a" 3)]
  | Throws _ => False
  end.
Proof. vm_compute. reflexivity. Qed.

(** C1 (as amended).  On a scene whose stored elements are objects with a
    numeric [updated], for every field-level merge with entries of the
    declared type (distinct ids; tombstones, or objects with a numeric
    [updated]), and every id [k] that is not the name of an
    [Object.prototype] member:
    - a tombstone for [k] removes the element under [k];
    - a replacement for [k] is stored iff no element is stored under [k] or
      its [updated] is strictly greater than the stored one's, and otherwise
      leaves the stored element unchanged;
    and after any sequence of field-level merges, when the last entry
    offered for [k] is a tombstone then [k] is absent, and an element
    present under [k] is one of the replacements offered after the last
    tombstone for [k] (or the initial element, when no tombstone was
    offered) and carries the highest [updated] among them. *)
Theorem field_merge_lww_per_key s dd els :
  elements_of (sceneData s) = Some (dd, els) ->
  Forall (fun kv => wf_element (snd kv)) els ->
  (forall r k pe, record_ok r -> In (k, pe) r -> is_proto_name k = false ->
     exists s' resp els',
       patch s (PatchRecord r) = Returns s' resp /\
       elements_now s' = Some els' /\
       (is_tomb pe = true -> own k els' = None) /\
       (is_tomb pe = false ->
          (accepted_cond k els pe -> own k els' = Some pe) /\
          (~ accepted_cond k els pe -> own k els' = own k els))) /\
  (forall rs k, Forall record_ok rs -> is_proto_name k = false ->
     exists s' els',
       run_fields s rs = Returns s' tt /\
       elements_now s' = Some els' /\
       let '(t, l) := since_tomb (offers k rs) in
       (t = true -> l = [] -> own k els' = None) /\
       (forall e, own k els' = Some e ->
          (In e l \/ (t = false /\ own k els = Some e)) /\
          Forall (fun o => le_updated o e) l /\
          (t = false -> forall e0, own k els = Some e0 -> le_updated e0 e))).
Proof.
  intros Hd Hels. split.
  - intros r k pe Hr Hin Hk.
    destruct (patch_fields_spec s r dd els Hd (proj1 Hr) (record_ok_objects r Hr))
      as (s' & dd' & els' & Hp & Hd' & _ & _ & Hown).
    exists s', (mkResponse (Val (JObj els')) (sceneVersion s + 1) false), els'.
    split; [exact Hp|]. split; [unfold elements_now; rewrite Hd'; reflexivity|].
    rewrite (Hown k), (own_in_nodup k pe r (proj1 Hr) Hin).
    split.
    + intros Ht. unfold step_key. rewrite Ht. reflexivity.
    + intros Ht. apply step_key_replacement; [exact Hk|exact Hels| |exact Ht].
      destruct Hr as [_ Hr]. rewrite Forall_forall in Hr.
      destruct (Hr (k, pe) Hin) as [H|H]; [simpl in H; congruence|exact H].
  - intros rs k Hrs Hk.
    destruct (run_fields_key s rs dd els Hd Hrs) as (s' & els' & Hrun & Hnow & Hown).
    exists s', els'. split; [exact Hrun|]. split; [exact Hnow|].
    assert (Hinit : lww_inv (own k els) false [] (own k els)).
    { split; [intros H; split; [reflexivity|intros _; exact H]|].
      split; [intros H; discriminate|].
      intros e He. assert (Hwf : wf_element e).
      { rewrite Forall_forall in Hels. exact (Hels (k, e) (own_in k e els He)). }
      split; [exact Hwf|]. split; [right; split; [reflexivity|exact He]|].
      split; [constructor|].
      intros _ e0 He0. rewrite He in He0. inversion He0; subst.
      apply le_updated_refl; exact Hwf. }
    pose proof (key_fold_inv k Hk (offers k rs) (own k els) false [] (own k els)
                  (offers_ok k rs Hrs) Hinit) as Hinv.
    unfold since_tomb. rewrite Hown.
    destruct (since_tomb_from false [] (offers k rs)) as [t l].
    destruct Hinv as (_ & Htl & Hsome). split; [exact Htl|].
    intros e He. destruct (Hsome e He) as (_ & H1 & H2 & H3). auto.
Qed.

(** C4.  On a scene whose [elements] is a plain object, a field-level merge
    with entries of the declared type returns and notifies exactly one
    [scene-elements-diff] event, at the new version; its diff is the input
    record restricted to the tombstones and the accepted replacements, in
    input order: a stale entry is never in it, and a call whose entries are
    all stale sends an empty diff.  Every accepted replacement is the element
    stored afterwards. *)
Theorem field_merge_emits_accepted_diff s r dd els :
  elements_of (sceneData s) = Some (dd, els) ->
  NoDup (keys_of r) ->
  entries_are_objects r ->
  exists s' resp els' diff,
    patch s (PatchRecord r) = Returns s' resp /\
    elements_now s' = Some els' /\
    notified s' = notified s ++ [SceneElementsDiff diff (sceneVersion s + 1)] /\
    (forall kv, In kv diff <->
       In kv r /\ (is_tomb (snd kv) = true \/ accepts (get els (fst kv)) (snd kv) = true)) /\
    (forall kv, In kv r -> is_tomb (snd kv) = false ->
       accepts (get els (fst kv)) (snd kv) = true -> own (fst kv) els' = Some (snd kv)) /\
    (Forall (fun kv => is_tomb (snd kv) = false /\
                       accepts (get els (fst kv)) (snd kv) = false) r ->
     diff = []).
Proof.
  intros Hd Hnd Hobj.
  destruct (patch_fields_spec s r dd els Hd Hnd Hobj)
    as (s' & dd' & els' & Hp & Hd' & _ & Hn & Hown).
  exists s', (mkResponse (Val (JObj els')) (sceneVersion s + 1) false), els',
    (filter (kept els) r).
  split; [exact Hp|]. split; [unfold elements_now; rewrite Hd'; reflexivity|].
  split; [exact Hn|]. split; [|split].
  - intros kv. rewrite filter_In. unfold kept. rewrite orb_true_iff. reflexivity.
  - intros [k pe] Hin Ht Hacc. simpl in *. rewrite Hown.
    rewrite (own_in_nodup k pe r Hnd Hin). unfold step_key. rewrite Ht.
    rewrite get_lookup in Hacc. rewrite Hacc. reflexivity.
  - intros Hall. apply filter_all_false. revert Hall. apply Forall_impl.
    intros kv [Ht Hacc]. unfold kept. rewrite Ht, Hacc. reflexivity.
Qed.

(** C10.  A tombstone for an id absent from the store: the entry leaves the
    scene unchanged (and stays in the diff), the call returns with the
    version advanced, the id is still absent, and the tombstone is in the
    diff of the [scene-elements-diff] event. *)
Theorem field_merge_tombstone_absent_id s r dd els k t :
  elements_of (sceneData s) = Some (dd, els) ->
  NoDup (keys_of r) ->
  entries_are_objects r ->
  In (k, t) r -> is_tomb t = true -> own k els = None ->
  (forall diff, fl_step (sceneData s) diff (k, t) = Some (sceneData s, diff)) /\
  exists s' els' diff,
    patch s (PatchRecord r) =
      Returns s' (mkResponse (Val (JObj els')) (sceneVersion s + 1) false) /\
    sceneVersion s' = sceneVersion s + 1 /\
    elements_now s' = Some els' /\
    own k els' = None /\
    notified s' = notified s ++ [SceneElementsDiff diff (sceneVersion s + 1)] /\
    In (k, t) diff.
Proof.
  intros Hd Hnd Hobj Hin Ht Hk. split.
  - intros diff. destruct t as [| | | | |o]; try discriminate Ht.
    unfold fl_step, is_deleted. simpl in Ht.
    destruct (own "deleted" o); [|discriminate Ht].
    rewrite Hd, (obj_del_not_in k els (own_none_not_in k els Hk)),
      (elements_of_put_same _ _ _ Hd).
    reflexivity.
  - destruct (patch_fields_spec s r dd els Hd Hnd Hobj)
      as (s' & dd' & els' & Hp & Hd' & Hv & Hn & Hown).
    exists s', els', (filter (kept els) r).
    split; [exact Hp|]. split; [exact Hv|].
    split; [unfold elements_now; rewrite Hd'; reflexivity|].
    split; [rewrite Hown, (own_in_nodup k t r Hnd Hin); unfold step_key; rewrite Ht; reflexivity|].
    split; [exact Hn|].
    apply filter_In. split; [exact Hin|]. unfold kept. simpl. rewrite Ht. reflexivity.
Qed.

(** ** Witnesses *)

Lemma field_merge_lww_per_key_witness :
  elements_of (sceneData scene_a5) = Some ([("elements", JObj els_a5)], els_a5) /\
  Forall (fun kv => wf_element (snd kv)) els_a5 /\
  exists s' resp els',
    patch scene_a5 (PatchRecord [("a", tombstone)]) = Returns s' resp /\
    elements_now s' = Some els' /\ own "a" els' = None.
Proof.
  assert (Hd : elements_of (sceneData scene_a5) = Some ([("elements", JObj els_a5)], els_a5))
    by (vm_compute; reflexivity).
  assert (Hw : Forall (fun kv => wf_element (snd kv)) els_a5).
  { constructor; [|constructor]. simpl.
    exists [("id", JStr "a"); ("updated", JNum 5)], 5. split; reflexivity. }
  split; [exact Hd|]. split; [exact Hw|].
  destruct (proj1 (field_merge_lww_per_key scene_a5 _ _ Hd Hw) [("a", tombstone)] "a" tombstone)
    as (s' & resp & els' & H1 & H2 & H3 & _).
  - split; [simpl; constructor; [simpl; tauto|constructor]|].
    constructor; [left; reflexivity|constructor].
  - left; reflexivity.
  - reflexivity.
  - exists s', resp, els'. split; [exact H1|]. split; [exact H2|]. apply H3. reflexivity.
Defined.

Lemma field_merge_emits_accepted_diff_witness :
  elements_of (sceneData scene_a5) = Some ([("elements", JObj els_a5)], els_a5) /\
  NoDup (keys_of [("a", mk_element "a" 3); ("b", mk_element "b" 1)]) /\
  entries_are_objects [("a", mk_element "a" 3); ("b", mk_element "b" 1)] /\
  exists s' resp diff,
    patch scene_a5 (PatchRecord [("a", mk_element "a" 3); ("b", mk_element "b" 1)])
      = Returns s' resp /\
    notified s' = notified scene_a5 ++ [SceneElementsDiff diff (sceneVersion scene_a5 + 1)] /\
    ~ In ("a", mk_element "a" 3) diff /\ In ("b", mk_element "b" 1) diff.
Proof.
  assert (Hd : elements_of (sceneData scene_a5) = Some ([("elements", JObj els_a5)], els_a5))
    by (vm_compute; reflexivity).
  assert (Hnd : NoDup (keys_of [("a", mk_element "a" 3); ("b", mk_element "b" 1)])).
  { simpl. constructor; [simpl; intros [H|H]; [discriminate|exact H]|].
    constructor; [simpl; tauto|constructor]. }
  assert (Hobj : entries_are_objects [("a", mk_element "a" 3); ("b", mk_element "b" 1)]).
  { constructor; [eexists; reflexivity|]. constructor; [eexists; reflexivity|constructor]. }
  split; [exact Hd|]. split; [exact Hnd|]. split; [exact Hobj|].
  destruct (field_merge_emits_accepted_diff scene_a5 _ _ _ Hd Hnd Hobj)
    as (s' & resp & els' & diff & H1 & _ & H3 & H4 & _ & _).
  exists s', resp, diff. split; [exact H1|]. split; [exact H3|]. split.
  - intros Hin. apply H4 in Hin. destruct Hin as [_ [H|H]]; vm_compute in H; discriminate.
  - apply H4. split; [right; left; reflexivity|]. right. vm_compute. reflexivity.
Defined.

Lemma field_merge_tombstone_absent_id_witness :
  exists s' els' diff,
    patch scene0 (PatchRecord [("a", tombstone)]) =
      Returns s' (mkResponse (Val (JObj els')) (sceneVersion scene0 + 1) false) /\
    own "a" els' = None /\ In ("a", tombstone) diff /\
    notified s' = notified scene0 ++ [SceneElementsDiff diff (sceneVersion scene0 + 1)].
Proof.
  destruct (field_merge_tombstone_absent_id scene0 [("a", tombstone)]
              [("elements", JObj [])] [] "a" tombstone)
    as [_ (s' & els' & diff & H1 & _ & _ & H4 & H5 & H6)].
  - vm_compute; reflexivity.
  - simpl. constructor; [simpl; tauto|constructor].
  - constructor; [eexists; reflexivity|constructor].
  - left; reflexivity.
  - reflexivity.
  - reflexivity.
  - exists s', els', diff. auto.
Defined.

(** ** Claims on the structural merge *)

(** C2.  A structural merge whose single operation removes the whole
    document ([{op: "remove", path: ""}]) makes the reducer return [null];
    [this.sceneVersion++] has already run when [sceneData.elements] throws,
    so the call is answered with [conflict: true] and a version advanced
    from 0 to 1: a rejected structural merge changes the version. *)
Theorem structural_merge_conflict_advances_version :
  sceneVersion scene0 = 0 /\
  match patch scene0 (PatchOps [mkOp OpRemove [] JNull]) with
  | Returns s resp =>
      resp_conflict resp = true /\ resp_version resp = 1 /\
      sceneVersion s = 1 /\ notified s = []
  | Throws _ => False
  end.
Proof. vm_compute. repeat split. Qed.

(** C3.  [fjp.applyReducer] applies each operation to the document in place,
    so an operation that succeeded before a failing [test] stays applied:
    after [add /elements/x] and a failing [test /elements/x/updated], the
    call answers [conflict: true] with the version unchanged, but the stored
    element map (and the map returned) now holds [x]. *)
Theorem structural_merge_failed_test_keeps_earlier_ops :
  elements_now scene0 = Some [] /\
  match patch scene0
          (PatchOps [mkOp OpAdd ["elements"; "x"] (mk_element "x" 1);
                     mkOp OpTest ["elements"; "x"; "updated"] (JNum 2)]) with
  | Returns s resp =>
      resp_conflict resp = true /\ resp_version resp = 0 /\ sceneVersion s = 0 /\
      resp_elements resp = Val (JObj [("x", mk_element "x" 1)]) /\
      elements_now s = Some [("x", mk_element "x" 1)] /\
      notified s = [] /\ stored s = None
  | Throws _ => False
  end.
Proof. vm_compute. repeat split. Qed.

(** ** Claim on [interleave] *)

(** C5.  [interleave] over a source that is exhausted at once and a source
    producing 10 then 20.  Both first promises are settled, and the race
    takes them in array order.  Splicing the exhausted source's promise out
    of [nextPromises] shifts the second source's promise to position 0,
    while [iterators] keeps its positions: after yielding 10 the loop asks
    [iterators[0]] (the exhausted source) for the next value, gets done,
    splices again and terminates.  The value 20 of the remaining source is
    never yielded, and the stream terminates although that source is not
    exhausted. *)
Theorem interleave_loses_values_after_exhaustion :
  let '(out, m) := mux_run (mux_init [[]; [10; 20]]) [0; 0; 0]%nat in
  out = [10] /\ mux_terminated m = true /\ iterators m = [[]; [20]].
Proof. vm_compute. repeat split. Qed.

(** ** Claim on closing a [join] stream *)

(** C8.  Closing the stream returned by [join] right after it yielded the
    snapshot: the [yield] of the snapshot is outside the [for await] loop,
    so [return()] finishes the generator without calling
    [subscribe.return], hence without [leave()].  The collaborator stays in
    the roster, no [collaborator-left] event is sent, the subscription
    stays registered, and the snapshot of a later joiner lists the
    collaborator. *)
Theorem join_closed_at_snapshot_skips_leave :
  let c := mkCollaborator (Some "u1") [] in
  match gen_next scene0 (GStart c "uuid-1") with
  | (s1, g1, Yielded (SceneSynced _ _ _)) =>
      let '(s2, g2) := gen_return s1 g1 in
      g2 = GDone /\
      own "u1" (collaborators s2) = Some c /\
      notified s2 = [CollaboratorUpdated c] /\
      map fst (subs s2) = [0%nat] /\
      match gen_next s2 (GStart (mkCollaborator (Some "u2") []) "uuid-2") with
      | (_, _, Yielded (SceneSynced _ roster _)) => own "u1" roster = Some c
      | _ => False
      end
  | _ => False
  end.
Proof. vm_compute. repeat split. Qed.

(** ** Claim on failing saves *)

(** C6, counterexample.  With a storage whose [put] rejects, a field-level
    merge on a fresh scene still returns normally (version 1, no conflict):
    [throttle] calls the async save function without keeping its promise,
    so the rejection is left unhandled and nothing is stored. *)
Lemma patch_returns_despite_storage_failure :
  match patch (collab_init 1700000000000 true) (PatchRecord [("a", mk_element "a" 1)]) with
  | Returns s resp =>
      resp_conflict resp = false /\ resp_version resp = 1 /\ stored s = None /\
      rejections s = [(Val (JObj [("a", mk_element "a" 1)]), 1)]
  | Throws _ => False
  end.
Proof. vm_compute. repeat split. Qed.

(** C6 (as amended).  A failure of the durable save never reaches the
    caller of [patch]: for every scene and argument, whether [storage.put]
    rejects or not, [patch] returns (or throws) alike, with the same
    response, scene, version, notified events and roster.  A failed save
    shows only as an unhandled rejection of the detached save promise. *)
Theorem patch_view_independent_of_storage s a b :
  caller_view (patch (set_storage_fails b s) a) =
  caller_view (patch (set_storage_fails false s) a).
Proof.
  rewrite (core_patch _ _ a (same_core_storage b s)).
  rewrite (core_patch _ _ a (same_core_storage false s)).
  reflexivity.
Qed.

(** ** Claim on the [join] stream filter *)

(** C7.  The first value of a [join] stream is the [scene-synced] snapshot
    (or the generator throws); every later value is the first buffered
    event that is not a [collaborator-updated] event for the joiner's own
    id, and only such self updates are skipped before it: all other events
    are passed through in order.  So the stream never yields a
    [collaborator-updated] event carrying the joiner's own id. *)
Theorem join_stream_skips_only_self_updates :
  (forall s c uuid,
     match gen_next s (GStart c uuid) with
     | (_, GAtSnapshot id _, Yielded e) =>
         id = match c_id c with Some i => i | None => uuid end /\
         (exists els roster v, e = SceneSynced els roster v) /\ is_self id e = false
     | (_, GDone, Failed) => True
     | _ => False
     end) /\
  (forall s id h (at_snapshot : bool),
     let g := if at_snapshot then GAtSnapshot id h else GInLoop id h in
     match gen_next s g with
     | (_, g', Yielded e) =>
         g' = GInLoop id h /\ is_self id e = false /\
         exists pre rest, queue_of h s = pre ++ e :: rest /\
                          Forall (fun x => is_self id x = true) pre
     | (_, g', Awaiting) =>
         g' = GInLoop id h /\ Forall (fun x => is_self id x = true) (queue_of h s)
     | _ => False
     end).
Proof.
  split.
  - intros s c uuid. simpl.
    destruct (subscribe s) as [s1 h].
    destruct (read _ "elements") as [els|]; [|exact I].
    split; [reflexivity|]. split; [do 3 eexists; reflexivity|reflexivity].
  - intros s id h b. simpl.
    assert (Hl : gen_next s (if b then GAtSnapshot id h else GInLoop id h) = live_next id h s)
      by (destruct b; reflexivity).
    rewrite Hl. unfold live_next.
    pose proof (take_live_spec id (queue_of h s)) as Ht.
    destruct (take_live id (queue_of h s)) as [[e|] q'].
    + destruct Ht as (pre & Hq & Hpre & He).
      split; [reflexivity|]. split; [exact He|]. exists pre, q'. split; assumption.
    + destruct Ht as [Hall _]. split; [reflexivity|exact Hall].
Qed.


(** ** Claim on [throttle] *)

(** C9.  One call of the throttled function at time [now] with interval [D]:
    when the last write ([lastCall]) is at least [D] ago it writes now and
    clears any pending timer; when it is sooner and no timer is pending it
    schedules one, due at [lastCall + D]; when a timer is pending the call
    changes nothing and does not write, so further calls are coalesced into
    the pending timer.  Every call either writes or leaves a timer pending, a
    pending timer disappears only through a write, and a pending timer that
    fires writes.  Over any sequence of calls and timer callbacks from the
    initial state, ending with a call at time [now]: either that last call
    wrote at [now], or exactly one timer is pending, due at [lastCall + D],
    and its callback, run at any time [f] not before it is due, writes at
    [f]: after the last call a write follows. *)
Theorem throttle_write_or_pending (D now : Z) (t : throttle_state) :
  (now - lastCall t >= D -> throttle_call D now t = (mkThrottle now None, true)) /\
  (now - lastCall t < D -> timeoutId t = None ->
     throttle_call D now t = (mkThrottle (lastCall t) (Some (lastCall t + D)), false)) /\
  (now - lastCall t < D -> timeoutId t <> None -> throttle_call D now t = (t, false)) /\
  (let '(t', w) := throttle_call D now t in w = true \/ timeoutId t' <> None) /\
  (let '(t', w) := throttle_call D now t in
   timeoutId t <> None -> timeoutId t' = None -> w = true) /\
  (timeoutId t <> None -> throttle_fire now t = (mkThrottle now None, true)) /\
  (forall evs,
     let '(tf, ws) := throttle_run D throttle_init (evs ++ [TCall now]) in
     (exists ws0, ws = ws0 ++ [now] /\ lastCall tf = now /\ timeoutId tf = None) \/
     (exists due, timeoutId tf = Some due /\ due = lastCall tf + D /\
        forall f, due <= f -> throttle_run D tf [TFire f] = (mkThrottle f None, [f]))).
Proof.
  split.
  { unfold throttle_call. intros H.
    destruct (Z.geb_spec (now - lastCall t) D); [reflexivity|lia]. }
  split.
  { unfold throttle_call. intros H Hn.
    destruct (Z.geb_spec (now - lastCall t) D); [lia|]. rewrite Hn.
    replace (now + (D - (now - lastCall t))) with (lastCall t + D) by lia.
    reflexivity. }
  split.
  { unfold throttle_call. intros H Hp.
    destruct (Z.geb_spec (now - lastCall t) D); [lia|].
    destruct (timeoutId t); [reflexivity|congruence]. }
  split.
  { unfold throttle_call. destruct (Z.geb_spec (now - lastCall t) D) as [Hge|Hlt].
    - left; reflexivity.
    - destruct (timeoutId t) as [due|] eqn:E; right; simpl; [rewrite E|]; discriminate. }
  split.
  { unfold throttle_call. destruct (Z.geb_spec (now - lastCall t) D).
    - intros; reflexivity.
    - destruct (timeoutId t) as [due|] eqn:E; simpl; intros H1 H2;
        [rewrite E in H2; discriminate|congruence]. }
  split.
  { unfold throttle_fire. intros Hp. destruct (timeoutId t); [reflexivity|congruence]. }
  intros evs. rewrite throttle_run_app.
  pose proof (throttle_run_due_inv D evs throttle_init
                ltac:(intros due E; discriminate E)) as Hinv.
  destruct (throttle_run D throttle_init evs) as [t1 ws1]. simpl in Hinv.
  cbn [throttle_run]. unfold throttle_call.
  destruct (Z.geb_spec (now - lastCall t1) D) as [Hge|Hlt].
  - left. exists ws1. try rewrite app_nil_r. repeat split.
  - destruct (timeoutId t1) as [due|] eqn:E.
    + right. exists due. try rewrite app_nil_r. split; [exact E|].
      split; [exact (Hinv due E)|]. intros f _. unfold throttle_fire. rewrite E. reflexivity.
    + right. exists (now + (D - (now - lastCall t1))). try rewrite app_nil_r.
      split; [reflexivity|]. split; [simpl; lia|]. intros f _. reflexivity.
Qed.


Lemma throttle_write_or_pending_witness :
  5000 - lastCall throttle_init < SAVE_EVERY_10_SECONDS_MS /\
  timeoutId throttle_init = None /\
  throttle_call SAVE_EVERY_10_SECONDS_MS 5000 throttle_init =
    (mkThrottle 0 (Some 10000), false).
Proof.
  assert (H1 : 5000 - lastCall throttle_init < SAVE_EVERY_10_SECONDS_MS)
    by (vm_compute; reflexivity).
  split; [exact H1|]. split; [reflexivity|].
  exact (proj1 (proj2 (throttle_write_or_pending SAVE_EVERY_10_SECONDS_MS 5000 throttle_init))
           H1 eq_refl).
Defined.

(** ** Further properties *)






(** [update] of a collaborator whose id is non-empty, is not "__proto__"
    and is an own entry of the roster replaces that entry, leaves the other
    entries and the scene alone, and delivers one collaborator-updated event
    to every subscriber. *)
Theorem update_replaces_joined c s id old :
  c_id c = Some id -> id <> "" -> id <> "__proto__" ->
  own id (collaborators s) = Some old ->
  own id (collaborators (update c s)) = Some c /\
  (forall k, k <> id -> own k (collaborators (update c s)) = own k (collaborators s)) /\
  notified (update c s) = notified s ++ [CollaboratorUpdated c] /\
  subs (update c s) = map (fun p => (fst p, snd p ++ [CollaboratorUpdated c])) (subs s) /\
  sceneData (update c s) = sceneData s /\ sceneVersion (update c s) = sceneVersion s.
Proof.
  intros Hid Hne _ Hold. unfold update. rewrite Hid, Hold.
  apply String.eqb_neq in Hne. rewrite Hne. simpl.
  split; [apply own_set_same|].
  split; [intros k Hk; apply own_set_other; exact Hk|].
  repeat split.
Qed.

(** [update] of a collaborator whose id names an [Object.prototype]
    member other than "__proto__", such as "constructor", passes the [in] test although nobody
    joined under that id, and stores and announces it. *)
Theorem update_stores_proto_named_id c s id :
  c_id c = Some id -> is_proto_name id = true -> id <> "__proto__" ->
  own id (collaborators s) = None ->
  own id (collaborators (update c s)) = Some c /\
  notified (update c s) = notified s ++ [CollaboratorUpdated c].
Proof.
  intros Hid Hp _ Hn. unfold update. rewrite Hid, Hn, Hp.
  assert (Hne : String.eqb id "" = false).
  { apply String.eqb_neq. intros ->. discriminate Hp. }
  rewrite Hne. simpl. split; [apply own_set_same|reflexivity].
Qed.

Lemma find_fresh_sub (h : nat) (q : list event) (e : event) l :
  Forall (fun p => (fst p < h)%nat) l ->
  find (fun p => Nat.eqb (fst p) h)
    (map (fun p => (fst p, snd p ++ [e])) (l ++ [(h, q)])) = Some (h, q ++ [e]).
Proof.
  induction 1 as [|p l Hp _ IH]; simpl.
  - rewrite Nat.eqb_refl. reflexivity.
  - destruct (Nat.eqb_spec (fst p) h); [lia|exact IH].
Qed.

Lemma find_set_queue (h : nat) (q : list event) l p :
  find (fun p => Nat.eqb (fst p) h) l = Some p ->
  find (fun p => Nat.eqb (fst p) h)
    (map (fun p => if Nat.eqb (fst p) h then (h, q) else p) l) = Some (h, q).
Proof.
  induction l as [|x l IH]; simpl; [discriminate|].
  destruct (Nat.eqb (fst x) h) eqn:E; simpl.
  - rewrite Nat.eqb_refl. reflexivity.
  - rewrite E. exact IH.
Qed.

Lemma queue_of_set_queue h q s :
  (exists p, find (fun p => Nat.eqb (fst p) h) (subs s) = Some p) ->
  queue_of h (set_queue h q s) = q.
Proof.
  intros [p Hp]. unfold queue_of, set_queue. simpl.
  rewrite (find_set_queue h q _ p Hp). reflexivity.
Qed.

(** The first [next()] of [join(collab)], for an id other than
    "__proto__", adds the collaborator to the roster under its id (a fresh
    uuid when it has none), announces it, and
    yields the snapshot of the elements, the roster and the version; the
    announcement sits in the new subscription's buffer, and the second
    [next()] consumes it as a self update and waits inside the loop. *)
Theorem join_first_next s c uuid els :
  match c_id c with Some i => i | None => uuid end <> "__proto__" ->
  read (sceneData s) "elements" = Some els ->
  Forall (fun p => (fst p < next_sub s)%nat) (subs s) ->
  let id := match c_id c with Some i => i | None => uuid end in
  let c' := mkCollaborator (Some id) (c_fields c) in
  exists s',
    gen_next s (GStart c uuid) =
      (s', GAtSnapshot id (next_sub s),
       Yielded (SceneSynced els (collaborators s') (sceneVersion s))) /\
    own id (collaborators s') = Some c' /\
    notified s' = notified s ++ [CollaboratorUpdated c'] /\
    queue_of (next_sub s) s' = [CollaboratorUpdated c'] /\
    match gen_next s' (GAtSnapshot id (next_sub s)) with
    | (s'', g, Awaiting) => g = GInLoop id (next_sub s) /\ queue_of (next_sub s) s'' = []
    | _ => False
    end.
Proof.
  intros _ Hr Hsubs id c'.
  set (s' := set_collab id c' (fst (subscribe s))).
  assert (Hf : find (fun p => Nat.eqb (fst p) (next_sub s)) (subs s')
               = Some (next_sub s, [CollaboratorUpdated c'])).
  { exact (find_fresh_sub _ [] _ _ Hsubs). }
  assert (Hq : queue_of (next_sub s) s' = [CollaboratorUpdated c']).
  { unfold queue_of. rewrite Hf. reflexivity. }
  exists s'.
  split; [simpl; rewrite Hr; reflexivity|].
  split; [simpl; apply own_set_same|].
  split; [reflexivity|]. split; [exact Hq|].
  unfold gen_next, live_next. rewrite Hq.
  cbn [take_live]. unfold is_self. cbn [c_id c']. rewrite String.eqb_refl.
  cbn [take_live]. split; [reflexivity|].
  apply queue_of_set_queue. eexists; exact Hf.
Qed.

(** Closing a [join] stream (for an id other than "__proto__") right after
    it yielded an event from inside its loop removes the collaborator,
    announces collaborator-left to the other subscribers, unregisters its
    own buffer and finishes the generator; a second [return()] or a
    [next()] afterwards changes nothing. *)
Theorem join_return_after_yield_leaves_once s g s1 id h e :
  gen_next s g = (s1, GInLoop id h, Yielded e) -> id <> "__proto__" ->
  let '(s', g') := gen_return s1 (GInLoop id h) in
  g' = GDone /\
  own id (collaborators s') = None /\
  (forall k, k <> id -> own k (collaborators s') = own k (collaborators s1)) /\
  notified s' = notified s1 ++ [CollaboratorLeft id] /\
  ~ In h (map fst (subs s')) /\
  (forall h' q, h' <> h -> In (h', q) (subs s1) ->
     In (h', q ++ [CollaboratorLeft id]) (subs s')) /\
  gen_return s' g' = (s', GDone) /\
  gen_next s' g' = (s', GDone, Finished).
Proof.
  intros _ _. simpl. split; [reflexivity|].
  split; [apply own_del_same|].
  split; [intros k Hk; apply own_del_other; exact Hk|].
  split; [reflexivity|].
  split.
  - rewrite in_map_iff. intros [[h0 q] [Hh Hin]]. simpl in Hh. subst h0.
    apply filter_In in Hin. destruct Hin as [_ Hb]. simpl in Hb.
    rewrite Nat.eqb_refl in Hb. discriminate.
  - split; [|split; reflexivity].
    intros h' q Hne Hin. apply filter_In. split.
    + apply (in_map (fun p => (fst p, snd p ++ [CollaboratorLeft id])) _ _ Hin).
    + simpl. apply Nat.eqb_neq in Hne. rewrite Hne. reflexivity.
Qed.

(** A structural merge always returns.  The response carries the stored
    version and the roster is unchanged; without conflict the version went
    up by one and the synced event was sent; on conflict no event is sent,
    nothing is saved, and the version either stayed or went up by one. *)
Theorem structural_merge_never_throws s ops :
  exists s' r,
    patch s (PatchOps ops) = Returns s' r /\
    resp_version r = sceneVersion s' /\
    collaborators s' = collaborators s /\
    (resp_conflict r = false ->
       sceneVersion s' = sceneVersion s + 1 /\
       notified s' = notified s ++ [SceneElementsSynced (resp_elements r) (resp_version r)]) /\
    (resp_conflict r = true ->
       notified s' = notified s /\ stored s' = stored s /\
       (sceneVersion s' = sceneVersion s \/ sceneVersion s' = sceneVersion s + 1)).
Proof.
  simpl. unfold jsonPatch.
  destruct (reduce_ops (sceneData s) AccStore ops) as [store' [a|]].
  - destruct (read (match a with AccStore => store' | AccFresh v => v end) "elements")
      as [els|].
    + set (s3 := set_sceneData (match a with AccStore => store' | AccFresh v => v end)
                   (set_sceneVersion (sceneVersion (set_sceneData store' s) + 1)
                      (set_sceneData store' s))).
      destruct (throttledSaveState_frame s3) as (_ & H2 & H3 & H4 & _).
      eexists; eexists. split; [reflexivity|]. simpl.
      rewrite H2, H3, H4. simpl.
      split; [reflexivity|]. split; [reflexivity|].
      split; [intros _; split; reflexivity|]. discriminate.
    + unfold conflict_response. eexists; eexists. split; [reflexivity|]. simpl.
      split; [reflexivity|]. split; [reflexivity|].
      split; [discriminate|]. intros _. split; [reflexivity|].
      split; [reflexivity|]. right; reflexivity.
  - unfold conflict_response. eexists; eexists. split; [reflexivity|]. simpl.
    split; [reflexivity|]. split; [reflexivity|].
    split; [discriminate|]. intros _. split; [reflexivity|].
    split; [reflexivity|]. left; reflexivity.
Qed.

(** A structural merge with no operations keeps the scene, bumps the
    version and announces the unchanged elements. *)
Theorem structural_merge_empty_ops s els :
  read (sceneData s) "elements" = Some els ->
  exists s',
    patch s (PatchOps []) = Returns s' (mkResponse els (sceneVersion s + 1) false) /\
    sceneData s' = sceneData s /\ sceneVersion s' = sceneVersion s + 1 /\
    notified s' = notified s ++ [SceneElementsSynced els (sceneVersion s + 1)].
Proof.
  intros Hr. simpl. unfold jsonPatch. simpl. rewrite Hr.
  set (s3 := set_sceneData (sceneData s)
               (set_sceneVersion (sceneVersion s + 1) (set_sceneData (sceneData s) s))).
  destruct (throttledSaveState_frame s3) as (H1 & H2 & H3 & _).
  eexists. split; [reflexivity|]. simpl. rewrite H1, H2, H3. simpl.
  repeat split.
Qed.

(** A field-level merge of the empty record keeps the scene, bumps the
    version and announces an empty diff. *)
Theorem field_merge_empty_record s els :
  read (sceneData s) "elements" = Some els ->
  exists s',
    patch s (PatchRecord []) = Returns s' (mkResponse els (sceneVersion s + 1) false) /\
    sceneData s' = sceneData s /\ sceneVersion s' = sceneVersion s + 1 /\
    notified s' = notified s ++ [SceneElementsDiff [] (sceneVersion s + 1)].
Proof.
  intros Hr. simpl. unfold patch_fields. simpl. rewrite Hr.
  set (s2 := set_sceneVersion (sceneVersion s + 1) (set_sceneData (sceneData s) s)).
  destruct (throttledSaveState_frame s2) as (H1 & H2 & H3 & _).
  eexists. split; [reflexivity|]. simpl. rewrite H1, H2, H3. simpl.
  repeat split.
Qed.

Lemma list_store_nth i x l : nth_error l i = Some x -> list_store i x l = l.
Proof.
  revert l; induction i as [|i IH]; intros [|y l] H; simpl in *; try discriminate.
  - inversion H; reflexivity.
  - rewrite (IH l H). reflexivity.
Qed.

Lemma apply_at_test v keys : forall prev node n,
  apply_at OpTest v prev keys node = Some n -> n = node.
Proof.
  induction keys as [|key rest IH]; intros prev node n H; simpl in H; [discriminate|].
  destruct (String.eqb key "__proto__" ||
            (String.eqb key "prototype" && String.eqb prev "constructor"));
    [discriminate|].
  destruct rest as [|k2 rest'].
  - unfold apply_last in H. destruct node; try discriminate.
    + destruct (array_index key l); [|discriminate].
      destruct (nth_error l n0); [|discriminate].
      destruct (json_eqb j v); [inversion H; reflexivity|discriminate].
    + destruct (own key o); [|discriminate].
      destruct (json_eqb j v); [inversion H; reflexivity|discriminate].
  - destruct node; try discriminate.
    + destruct (array_index key l) as [i|]; [|discriminate].
      destruct (nth_error l i) as [child|] eqn:Ec; [|discriminate].
      destruct (apply_at OpTest v key (k2 :: rest') child) as [child'|] eqn:Ea;
        [|discriminate].
      apply IH in Ea. subst child'. inversion H. rewrite (list_store_nth _ _ _ Ec).
      reflexivity.
    + destruct (own key o) as [child|] eqn:Ec; [|discriminate].
      destruct (apply_at OpTest v key (k2 :: rest') child) as [child'|] eqn:Ea;
        [|discriminate].
      apply IH in Ea. subst child'. inversion H. rewrite (obj_set_own _ _ _ Ec).
      reflexivity.
Qed.

Lemma reduce_tests ops : forall store,
  Forall (fun o => op o = OpTest) ops ->
  fst (reduce_ops store AccStore ops) = store /\
  (snd (reduce_ops store AccStore ops) = None \/
   snd (reduce_ops store AccStore ops) = Some AccStore).
Proof.
  induction ops as [|o ops IH]; intros store Hops; cbn [reduce_ops];
    [split; [reflexivity|right; reflexivity]|].
  inversion Hops as [|? ? Ho Hops']; subst.
  destruct (path o) as [|k ks].
  - rewrite Ho. destruct (json_eqb store (value o)); [apply IH; exact Hops'|].
    split; [reflexivity|left; reflexivity].
  - rewrite Ho. destruct (apply_at OpTest (value o) "" (k :: ks) store) as [cur'|] eqn:E.
    + apply apply_at_test in E. subst cur'. apply IH. exact Hops'.
    + split; [reflexivity|left; reflexivity].
Qed.

Lemma set_sceneData_same s : set_sceneData (sceneData s) s = s.
Proof. destruct s; reflexivity. Qed.

(** A structural merge made only of test operations never changes the
    scene data: a failing test leaves the whole state as it was, passing
    tests bump the version. *)
Theorem structural_merge_tests_only s ops :
  Forall (fun o => op o = OpTest) ops ->
  read (sceneData s) "elements" <> None ->
  exists s' r,
    patch s (PatchOps ops) = Returns s' r /\
    sceneData s' = sceneData s /\
    (resp_conflict r = true -> s' = s) /\
    (resp_conflict r = false -> sceneVersion s' = sceneVersion s + 1).
Proof.
  intros Hops Hr. simpl. unfold jsonPatch.
  destruct (reduce_tests ops (sceneData s) Hops) as [Hf Hs].
  destruct (reduce_ops (sceneData s) AccStore ops) as [store' res].
  simpl in Hf, Hs. subst store'.
  destruct Hs as [->| ->].
  - unfold conflict_response. rewrite set_sceneData_same.
    eexists; eexists. split; [reflexivity|]. split; [reflexivity|].
    split; [reflexivity|discriminate].
  - destruct (read (sceneData s) "elements") as [els|] eqn:E; [|congruence].
    set (s3 := set_sceneData (sceneData s)
                 (set_sceneVersion (sceneVersion (set_sceneData (sceneData s) s) + 1)
                    (set_sceneData (sceneData s) s))).
    destruct (throttledSaveState_frame s3) as (H1 & H2 & _).
    eexists; eexists. split; [reflexivity|]. simpl. rewrite H1, H2.
    split; [reflexivity|]. split; [discriminate|intros _; reflexivity].
Qed.

Lemma iter_next_fresh {T : Type} (r : list T) :
  exists h r', (match r with x :: rest => (rest, Value x) | [] => ([], Done) end) = (r', h) /\
    r = pend h ++ r' /\ fresh_ok h r'.
Proof.
  destruct r as [|x rest].
  - exists Done, []. split; [reflexivity|]. split; [reflexivity|intros _; reflexivity].
  - exists (Value x), rest. split; [reflexivity|]. split; [reflexivity|discriminate].
Qed.

Lemma mux_run_inv {T : Type} (sched : list nat) : forall (a b : list T) m,
  mux_inv a b m -> merge_prefix a b (fst (mux_run m sched)).
Proof.
  induction sched as [|i sched IH]; intros a b m Hinv; [constructor|].
  destruct Hinv as [r0 r1 h0 h1 F0 F1|r1 h1|r0 r1 h0 F0|its a b].
  - destruct i as [|[|i]].
    + destruct h0 as [|x]; cbn.
      * rewrite (F0 eq_refl).
        destruct (mux_run (mkMux [[]; r1] [h1]) sched) as [out mf] eqn:E.
        cbn. pose proof (IH [] (pend h1 ++ r1) _ (inv_second r1 h1)) as H.
        rewrite E in H. exact H.
      * destruct (iter_next_fresh r0) as (h & r' & Hn & Hr & Hf).
        destruct r0 as [|y rest]; inversion Hn; subst;
        match goal with
        | |- context [mux_run ?m sched] =>
            destruct (mux_run m sched) as [out mf] eqn:E
        end; cbn; apply mp_l;
        match goal with
        | E : mux_run ?m sched = _ |- _ =>
            pose proof (IH _ _ m ltac:(constructor; assumption)) as H
        end; rewrite E in H; exact H.
    + destruct h1 as [|x]; cbn.
      * rewrite (F1 eq_refl).
        destruct (mux_run (mkMux [r0; []] [h0]) sched) as [out mf] eqn:E.
        cbn. pose proof (IH (pend h0 ++ r0) [] _ (inv_first r0 [] h0 F0)) as H.
        rewrite E in H. exact H.
      * destruct (iter_next_fresh r1) as (h & r' & Hn & Hr & Hf).
        destruct r1 as [|y rest]; inversion Hn; subst;
        match goal with
        | |- context [mux_run ?m sched] =>
            destruct (mux_run m sched) as [out mf] eqn:E
        end; cbn; apply mp_r;
        match goal with
        | E : mux_run ?m sched = _ |- _ =>
            pose proof (IH _ _ m ltac:(constructor; assumption)) as H
        end; rewrite E in H; exact H.
    + cbn. destruct i; constructor.
  - destruct i as [|i].
    + destruct h1 as [|x]; cbn.
      * destruct (mux_run (mkMux [[]; r1] []) sched) as [out mf] eqn:E.
        pose proof (IH [] r1 _ (inv_done [[]; r1] [] r1)) as H.
        rewrite E in H. exact H.
      * destruct (mux_run (mkMux [[]; r1] [Done]) sched) as [out mf] eqn:E.
        cbn. apply mp_r.
        pose proof (IH [] r1 _ (inv_second r1 Done)) as H.
        rewrite E in H. exact H.
    + cbn. destruct i; constructor.
  - destruct i as [|i].
    + destruct h0 as [|x]; cbn.
      * destruct (mux_run (mkMux [r0; r1] []) sched) as [out mf] eqn:E.
        pose proof (IH r0 [] _ (inv_done [r0; r1] r0 [])) as H.
        rewrite E in H. exact H.
      * destruct (iter_next_fresh r0) as (h & r' & Hn & Hr & Hf).
        destruct r0 as [|y rest]; inversion Hn; subst;
        match goal with
        | |- context [mux_run ?m sched] =>
            destruct (mux_run m sched) as [out mf] eqn:E
        end; cbn; apply mp_l;
        match goal with
        | E : mux_run ?m sched = _ |- _ =>
            pose proof (IH _ [] m ltac:(constructor; assumption)) as H
        end; rewrite E in H; exact H.
    + cbn. destruct i; constructor.
  - cbn. constructor.
Qed.

(** Whatever the order in which the race settles, the values yielded by
    [interleave] over two sources are a prefix of an interleaving of the
    two sources that keeps each source's order: nothing is duplicated,
    invented or reordered. *)
Theorem interleave_output_merges_sources {T : Type} (s0 s1 : list T) (sched : list nat) :
  merge_prefix s0 s1 (fst (mux_run (mux_init [s0; s1]) sched)).
Proof.
  destruct (iter_next_fresh s0) as (h0 & r0 & E0 & H0 & F0).
  destruct (iter_next_fresh s1) as (h1 & r1 & E1 & H1 & F1).
  assert (Hm : mux_init [s0; s1] = mkMux [r0; r1] [h0; h1]).
  { destruct s0, s1; inversion E0; inversion E1; subst; reflexivity. }
  rewrite Hm, H0, H1. apply mux_run_inv. constructor; assumption.
Qed.

Lemma throttle_exec_spaced D t ws tf :
  throttle_exec D t ws tf ->
  (forall due, timeoutId t = Some due -> due = lastCall t + D) ->
  spaced D (lastCall t) ws.
Proof.
  induction 1 as [t|t now t' w ws tf Hc _ IH|t now due t' ws tf Hdue Hle Hf _ IH];
    intros Hinv; [exact I| |].
  - unfold throttle_call in Hc.
    destruct (Z.geb_spec (now - lastCall t) D) as [Hge|Hlt].
    + inversion Hc; subst. simpl. split; [lia|].
      apply IH. intros due Hd; discriminate.
    + destruct (timeoutId t) as [d|] eqn:Et; inversion Hc; subst; simpl.
      * apply IH. rewrite Et. exact Hinv.
      * apply IH. simpl. intros due Hd. inversion Hd. lia.
  - unfold throttle_fire in Hf. rewrite Hdue in Hf. inversion Hf; subst.
    simpl. split; [rewrite (Hinv due Hdue) in Hle; lia|].
    apply IH. intros d Hd; discriminate.
Qed.

(** In every run of a [throttle(fn, D)] wrapper, consecutive runs of [fn]
    happen at least [D] apart, and the first at least [D] after time 0. *)
Theorem throttle_writes_spaced D ws tf :
  throttle_exec D throttle_init ws tf -> spaced D 0 ws.
Proof.
  intros H. apply (throttle_exec_spaced D throttle_init ws tf H).
  intros due Hd; discriminate.
Qed.

Lemma throttle_writes_spaced_witness :
  throttle_exec 10000 throttle_init [20000; 30000] (mkThrottle 30000 None) /\
  spaced 10000 0 [20000; 30000].
Proof.
  assert (H : throttle_exec 10000 throttle_init [20000; 30000] (mkThrottle 30000 None)).
  { change [20000; 30000] with ([20000] ++ ([] ++ [30000])).
    apply (te_call 10000 throttle_init 20000 (mkThrottle 20000 None) true); [reflexivity|].
    apply (te_call 10000 _ 25000 (mkThrottle 20000 (Some 30000)) false); [reflexivity|].
    apply (te_fire 10000 _ 30000 30000 (mkThrottle 30000 None)); [reflexivity|lia|reflexivity|].
    apply te_nil. }
  split; [exact H|]. exact (throttle_writes_spaced 10000 _ _ H).
Defined.

Lemma collab_load_none now b : collab_load None now b = collab_init now b.
Proof. reflexivity. Qed.

Lemma read_elements_not_inherited d : read d "elements" <> Some Inherited.
Proof.
  destruct d; simpl; try discriminate. unfold get.
  destruct (own "elements" o); discriminate.
Qed.

Lemma throttledSaveState_stored s els :
  read (sceneData s) "elements" = Some els ->
  stored (throttledSaveState s) = stored s \/
  stored (throttledSaveState s) = Some (els, sceneVersion s).
Proof.
  intros Hr. unfold throttledSaveState.
  destruct (throttle_call SAVE_EVERY_10_SECONDS_MS (clock s) (saver s)) as [t []];
    [|left; reflexivity].
  unfold save_state. simpl. rewrite Hr.
  destruct (storage_fails s); [left|right]; reflexivity.
Qed.

Lemma load_reads_elements els v now b :
  els <> Inherited ->
  read (sceneData (collab_load (Some (els, v)) now b)) "elements" = Some els /\
  sceneVersion (collab_load (Some (els, v)) now b) = v.
Proof.
  intros Hi. split; [|reflexivity].
  destruct els as [| |e]; [reflexivity|congruence|reflexivity].
Qed.

(** When a merge that reports no conflict writes to storage, an actor
    constructed afterwards over that storage reads back exactly the elements
    and the version the merge returned. *)
Theorem patch_save_then_reload s a s1 r now b :
  patch s a = Returns s1 r ->
  resp_conflict r = false ->
  stored s1 <> stored s ->
  let s' := collab_load (stored s1) now b in
  read (sceneData s') "elements" = Some (resp_elements r) /\
  sceneVersion s' = resp_version r.
Proof.
  intros Hp Hc Hst s'.
  assert (Hsave : forall s3 els v,
            read (sceneData s3) "elements" = Some els -> sceneVersion s3 = v ->
            stored s3 = stored s ->
            stored (notify (SceneElementsSynced els v) (throttledSaveState s3)) <> stored s ->
            stored (notify (SceneElementsSynced els v) (throttledSaveState s3)) = Some (els, v)).
  { intros s3 els v Hr Hv H3 Hne. simpl in *.
    destruct (throttledSaveState_stored s3 els Hr) as [E|E]; rewrite E in *;
      [congruence|rewrite Hv; reflexivity]. }
  assert (Hsave' : forall s3 els v diff,
            read (sceneData s3) "elements" = Some els -> sceneVersion s3 = v ->
            stored s3 = stored s ->
            stored (notify (SceneElementsDiff diff v) (throttledSaveState s3)) <> stored s ->
            stored (notify (SceneElementsDiff diff v) (throttledSaveState s3)) = Some (els, v)).
  { intros s3 els v diff Hr Hv H3 Hne. simpl in *.
    destruct (throttledSaveState_stored s3 els Hr) as [E|E]; rewrite E in *;
      [congruence|rewrite Hv; reflexivity]. }
  destruct a as [ops|rec]; simpl in Hp.
  - unfold jsonPatch in Hp.
    destruct (reduce_ops (sceneData s) AccStore ops) as [store' [acc0|]];
      [|inversion Hp; subst; discriminate].
    destruct (read (match acc0 with AccStore => store' | AccFresh v => v end) "elements")
      as [els|] eqn:Er; [|inversion Hp; subst; discriminate].
    inversion Hp; subst. simpl.
    subst s'.
    match goal with
    | |- context [notify (SceneElementsSynced _ ?v) (throttledSaveState ?s3)] =>
        rewrite (Hsave s3 els v Er eq_refl eq_refl Hst)
    end.
    apply load_reads_elements. intros ->.
    exact (read_elements_not_inherited _ Er).
  - unfold patch_fields in Hp.
    destruct (fl_loop (sceneData s) rec rec) as [[d diff] ok].
    destruct (negb ok); [discriminate|].
    change (sceneData (set_sceneVersion ?v (set_sceneData d s))) with d in Hp.
    destruct (read d "elements") as [els|] eqn:Er; [|discriminate].
    inversion Hp; subst. simpl.
    subst s'.
    match goal with
    | |- context [notify (SceneElementsDiff ?df ?v) (throttledSaveState ?s3)] =>
        rewrite (Hsave' s3 els v df Er eq_refl eq_refl Hst)
    end.
    apply load_reads_elements. intros ->.
    exact (read_elements_not_inherited _ Er).
Qed.

Lemma patch_save_then_reload_witness :
  match patch scene0 (PatchRecord els_a5) with
  | Returns s1 r =>
      resp_conflict r = false /\ stored s1 <> stored scene0 /\
      read (sceneData (collab_load (stored s1) 0 false)) "elements" = Some (resp_elements r) /\
      sceneVersion (collab_load (stored s1) 0 false) = resp_version r
  | Throws _ => False
  end.
Proof.
  destruct (patch scene0 (PatchRecord els_a5)) as [s1 r|] eqn:E.
  - pose proof E as E'. vm_compute in E'. injection E' as Hs Hr.
    assert (Hc : resp_conflict r = false) by (rewrite <- Hr; reflexivity).
    assert (Hne : stored s1 <> stored scene0) by (rewrite <- Hs; vm_compute; discriminate).
    split; [exact Hc|]. split; [exact Hne|].
    exact (patch_save_then_reload scene0 _ s1 r 0 false E Hc Hne).
  - vm_compute in E. discriminate.
Defined.

(** The old [patch] never changes the stored version and never reports a
    conflict: a successful call announces and returns version + 1 while the
    actor keeps the old version; a failed call returns the current version
    with no event. *)
Theorem old_patch_version_frozen s ops :
  exists s' r,
    old_patch s ops = Returns s' r /\
    sceneVersion s' = sceneVersion s /\ resp_conflict r = false /\
    ((resp_version r = sceneVersion s + 1 /\
      notified s' = notified s ++ [SceneElementsSynced (resp_elements r) (sceneVersion s + 1)]) \/
     (resp_version r = sceneVersion s /\ notified s' = notified s)).
Proof.
  unfold old_patch.
  destruct (reduce_ops (sceneData s) AccStore ops) as [store' [a|]].
  - destruct (read (match a with AccStore => store' | AccFresh v => v end) "elements")
      as [els|].
    + destruct (storage_fails s) eqn:F; simpl; rewrite F.
      * eexists; eexists. split; [reflexivity|]. simpl.
        split; [reflexivity|]. split; [reflexivity|]. right; split; reflexivity.
      * eexists; eexists. split; [reflexivity|]. simpl.
        split; [reflexivity|]. split; [reflexivity|]. left; split; reflexivity.
    + eexists; eexists. split; [reflexivity|]. simpl.
      split; [reflexivity|]. split; [reflexivity|]. right; split; reflexivity.
  - eexists; eexists. split; [reflexivity|]. simpl.
    split; [reflexivity|]. split; [reflexivity|]. right; split; reflexivity.
Qed.

(** When the storage rejects the put, the old [patch] answers with the
    current version and the elements of the already replaced scene, without
    conflict flag, event or stored state. *)
Theorem old_patch_storage_failure s ops :
  storage_fails s = true ->
  exists s' r,
    old_patch s ops = Returns s' r /\
    notified s' = notified s /\ stored s' = stored s /\
    sceneVersion s' = sceneVersion s /\ resp_version r = sceneVersion s /\
    resp_conflict r = false /\ resp_elements r = spread_elements (sceneData s').
Proof.
  intros F. unfold old_patch.
  destruct (reduce_ops (sceneData s) AccStore ops) as [store' [a|]]; simpl.
  - destruct (read (match a with AccStore => store' | AccFresh v => v end) "elements");
      simpl; [rewrite F|];
      eexists; eexists; split; try reflexivity; simpl; repeat split.
  - eexists; eexists; split; [reflexivity|]; simpl; repeat split.
Qed.

Lemma old_patch_storage_failure_witness :
  storage_fails (collab_init 1700000000000 true) = true /\
  exists s' r,
    old_patch (collab_init 1700000000000 true)
      [mkOp OpAdd ["elements"; "x"] (mk_element "x" 1)] = Returns s' r /\
    notified s' = [] /\ stored s' = None /\ sceneVersion s' = 0 /\
    resp_version r = 0 /\ resp_conflict r = false /\
    resp_elements r = spread_elements (sceneData s') /\
    resp_elements r = Val (JObj [("x", mk_element "x" 1)]).
Proof.
  split; [reflexivity|].
  destruct (old_patch_storage_failure (collab_init 1700000000000 true)
              [mkOp OpAdd ["elements"; "x"] (mk_element "x" 1)] eq_refl)
    as (s' & r & E & Hn & Hst & Hv & Hr & Hc & He).
  exists s', r. split; [exact E|].
  pose proof E as E'. vm_compute in E'. injection E' as Hs Hr'.
  split; [exact Hn|]. split; [exact Hst|]. split; [exact Hv|].
  split; [exact Hr|]. split; [exact Hc|]. split; [exact He|].
  rewrite <- Hr'. reflexivity.
Defined.

(** The old [update] stores any collaborator whose id is not "__proto__",
    joined or not, under its id (under "undefined" when it has none), keeps
    the other entries and announces it. *)
Theorem old_update_always_stores c s :
  let key := match c_id c with Some i => i | None => "undefined" end in
  key <> "__proto__" ->
  own key (collaborators (old_update c s)) = Some c /\
  (forall k, k <> key -> own k (collaborators (old_update c s)) = own k (collaborators s)) /\
  notified (old_update c s) = notified s ++ [CollaboratorUpdated c] /\
  sceneData (old_update c s) = sceneData s /\
  sceneVersion (old_update c s) = sceneVersion s.
Proof.
  intros key Hk. unfold old_update. fold key. simpl.
  split; [apply own_set_same|].
  split; [intros k Hne; apply own_set_other; exact Hne|].
  split; [reflexivity|split; reflexivity].
Qed.

Lemma old_update_always_stores_witness :
  ("undefined" <> "__proto__")%string /\
  own "undefined" (collaborators (old_update (mkCollaborator None []) scene0)) =
    Some (mkCollaborator None []).
Proof.
  split; [discriminate|].
  apply (old_update_always_stores (mkCollaborator None []) scene0). discriminate.
Defined.



Lemma update_replaces_joined_witness :
  ("u1" <> "")%string /\ ("u1" <> "__proto__")%string /\
  own "u1" (collaborators scene_u1) = Some (mkCollaborator (Some "u1") []) /\
  own "u1" (collaborators (update (mkCollaborator (Some "u1") [("color", JStr "red")]) scene_u1))
    = Some (mkCollaborator (Some "u1") [("color", JStr "red")]) /\
  notified (update (mkCollaborator (Some "u1") [("color", JStr "red")]) scene_u1)
    = [CollaboratorUpdated (mkCollaborator (Some "u1") [("color", JStr "red")])].
Proof.
  assert (Hold : own "u1" (collaborators scene_u1) = Some (mkCollaborator (Some "u1") []))
    by reflexivity.
  split; [discriminate|]. split; [discriminate|]. split; [exact Hold|].
  destruct (update_replaces_joined (mkCollaborator (Some "u1") [("color", JStr "red")])
              scene_u1 "u1" _ eq_refl ltac:(discriminate) ltac:(discriminate) Hold)
    as (H1 & _ & H3 & _).
  split; [exact H1|]. rewrite H3. reflexivity.
Defined.

Lemma update_stores_proto_named_id_witness :
  is_proto_name "constructor" = true /\ ("constructor" <> "__proto__")%string /\
  own "constructor" (collaborators scene0) = None /\
  own "constructor" (collaborators (update (mkCollaborator (Some "constructor") []) scene0))
    = Some (mkCollaborator (Some "constructor") []).
Proof.
  split; [reflexivity|]. split; [discriminate|]. split; [reflexivity|].
  apply (update_stores_proto_named_id (mkCollaborator (Some "constructor") []) scene0
           "constructor" eq_refl eq_refl ltac:(discriminate) eq_refl).
Defined.

Lemma join_first_next_witness :
  ("u1" <> "__proto__")%string /\
  read (sceneData scene0) "elements" = Some (Val (JObj [])) /\
  Forall (fun p => (fst p < next_sub scene0)%nat) (subs scene0) /\
  exists s',
    gen_next scene0 (GStart (mkCollaborator (Some "u1") []) "uuid") =
      (s', GAtSnapshot "u1" 0%nat,
       Yielded (SceneSynced (Val (JObj [])) (collaborators s') 0)) /\
    own "u1" (collaborators s') = Some (mkCollaborator (Some "u1") []) /\
    queue_of 0%nat s' = [CollaboratorUpdated (mkCollaborator (Some "u1") [])].
Proof.
  assert (Hr : read (sceneData scene0) "elements" = Some (Val (JObj []))) by reflexivity.
  assert (Hf : Forall (fun p => (fst p < next_sub scene0)%nat) (subs scene0))
    by constructor.
  split; [discriminate|]. split; [exact Hr|]. split; [exact Hf|].
  destruct (join_first_next scene0 (mkCollaborator (Some "u1") []) "uuid" _
              ltac:(discriminate) Hr Hf)
    as (s' & E & Ho & _ & Hq & _).
  exists s'. split; [exact E|]. split; [exact Ho|exact Hq].
Defined.

Lemma structural_merge_empty_ops_witness :
  read (sceneData scene0) "elements" = Some (Val (JObj [])) /\
  exists s',
    patch scene0 (PatchOps []) = Returns s' (mkResponse (Val (JObj [])) 1 false) /\
    notified s' = [SceneElementsSynced (Val (JObj [])) 1].
Proof.
  assert (Hr : read (sceneData scene0) "elements" = Some (Val (JObj []))) by reflexivity.
  split; [exact Hr|].
  destruct (structural_merge_empty_ops scene0 _ Hr) as (s' & E & _ & _ & Hn).
  exists s'. split; [exact E|exact Hn].
Defined.

Lemma field_merge_empty_record_witness :
  read (sceneData scene0) "elements" = Some (Val (JObj [])) /\
  exists s',
    patch scene0 (PatchRecord []) = Returns s' (mkResponse (Val (JObj [])) 1 false) /\
    notified s' = [SceneElementsDiff [] 1].
Proof.
  assert (Hr : read (sceneData scene0) "elements" = Some (Val (JObj []))) by reflexivity.
  split; [exact Hr|].
  destruct (field_merge_empty_record scene0 _ Hr) as (s' & E & _ & _ & Hn).
  exists s'. split; [exact E|exact Hn].
Defined.

Lemma structural_merge_tests_only_witness :
  Forall (fun o => op o = OpTest) [mkOp OpTest ["elements"] (JObj [])] /\
  read (sceneData scene0) "elements" <> None /\
  exists s' r,
    patch scene0 (PatchOps [mkOp OpTest ["elements"] (JObj [])]) = Returns s' r /\
    sceneData s' = sceneData scene0.
Proof.
  assert (Hf : Forall (fun o => op o = OpTest) [mkOp OpTest ["elements"] (JObj [])])
    by (constructor; [reflexivity|constructor]).
  assert (Hr : read (sceneData scene0) "elements" <> None) by discriminate.
  split; [exact Hf|]. split; [exact Hr|].
  destruct (structural_merge_tests_only scene0 _ Hf Hr) as (s' & r & E & Hd & _).
  exists s', r. split; [exact E|exact Hd].
Defined.

(** A field-level merge never stores a replacement under an id that names an
    [Object.prototype] member (such as "constructor") and has no own entry
    among the elements: [this.sceneData.elements[id]] reads the inherited
    member, which is truthy and has no [updated], so the replacement is
    rejected, the id stays absent, and the entry is left out of the diff. *)
Theorem field_merge_proto_id_rejected s r dd els k pe :
  elements_of (sceneData s) = Some (dd, els) ->
  NoDup (keys_of r) -> entries_are_objects r ->
  In (k, pe) r -> is_tomb pe = false ->
  is_proto_name k = true -> own k els = None ->
  exists s' els' diff,
    patch s (PatchRecord r) =
      Returns s' (mkResponse (Val (JObj els')) (sceneVersion s + 1) false) /\
    elements_now s' = Some els' /\
    own k els' = None /\
    notified s' = notified s ++ [SceneElementsDiff diff (sceneVersion s + 1)] /\
    ~ In (k, pe) diff.
Proof.
  intros Hd Hnd Hobj Hin Ht Hp Hk.
  assert (Hg : forall x, gt_updated x None = false) by (intros [x|]; reflexivity).
  destruct (patch_fields_spec s r dd els Hd Hnd Hobj)
    as (s' & dd' & els' & Hpt & Hd' & _ & Hn & Hown).
  exists s', els', (filter (kept els) r).
  split; [exact Hpt|]. split; [unfold elements_now; rewrite Hd'; reflexivity|].
  split.
  - rewrite Hown, Hk, (own_in_nodup k pe r Hnd Hin).
    unfold step_key, accepts, lookup_js. rewrite Ht, Hp. simpl.
    rewrite Hg. reflexivity.
  - split; [exact Hn|]. intros Hin'. apply filter_In in Hin'.
    destruct Hin' as [_ Hkept]. unfold kept, accepts, get in Hkept. simpl in Hkept.
    rewrite Ht, Hk, Hp in Hkept. simpl in Hkept.
    rewrite Hg in Hkept. discriminate.
Qed.

Lemma field_merge_proto_id_rejected_witness :
  elements_of (sceneData scene0) = Some ([("elements", JObj [])], []) /\
  is_proto_name "constructor" = true /\
  exists s' els' diff,
    patch scene0 (PatchRecord [("constructor", mk_element "constructor" 1)]) =
      Returns s' (mkResponse (Val (JObj els')) 1 false) /\
    own "constructor" els' = None /\
    ~ In ("constructor", mk_element "constructor" 1) diff.
Proof.
  assert (Hd : elements_of (sceneData scene0) = Some ([("elements", JObj [])], []))
    by reflexivity.
  assert (Hnd : NoDup (keys_of [("constructor", mk_element "constructor" 1)]))
    by (constructor; [intros []|constructor]).
  assert (Ho : entries_are_objects [("constructor", mk_element "constructor" 1)])
    by (constructor; [eexists; reflexivity|constructor]).
  split; [exact Hd|]. split; [reflexivity|].
  destruct (field_merge_proto_id_rejected scene0 _ _ _ "constructor"
              (mk_element "constructor" 1) Hd Hnd Ho (or_introl eq_refl)
              eq_refl eq_refl eq_refl)
    as (s' & els' & diff & E & _ & Hk & _ & Hnin).
  exists s', els', diff. split; [exact E|]. split; [exact Hk|exact Hnin].
Defined.

Lemma join_return_after_yield_leaves_once_witness :
  gen_next scene_u1_joined_u2_left (GAtSnapshot "u1" 0) =
    (fst (fst (gen_next scene_u1_joined_u2_left (GAtSnapshot "u1" 0))),
     GInLoop "u1" 0, Yielded (CollaboratorLeft "u2")) /\
  ("u1" <> "__proto__")%string /\
  own "u1" (collaborators (fst (gen_return
    (fst (fst (gen_next scene_u1_joined_u2_left (GAtSnapshot "u1" 0))))
    (GInLoop "u1" 0)))) = None.
Proof.
  assert (E : gen_next scene_u1_joined_u2_left (GAtSnapshot "u1" 0) =
    (fst (fst (gen_next scene_u1_joined_u2_left (GAtSnapshot "u1" 0))),
     GInLoop "u1" 0, Yielded (CollaboratorLeft "u2"))) by (vm_compute; reflexivity).
  split; [exact E|]. split; [discriminate|].
  pose proof (join_return_after_yield_leaves_once _ _ _ _ _ _ E ltac:(discriminate)) as H.
  revert H.
  destruct (gen_return (fst (fst (gen_next scene_u1_joined_u2_left (GAtSnapshot "u1" 0))))
              (GInLoop "u1" 0)) as [s' g'].
  simpl. intros (_ & Ho & _). exact Ho.
Defined.
